(** * route_check: a shallow embedding of [scripts/route_check.py]

    The script compares the routes declared in APPL-DB with the route
    entries programmed in ASIC-DB.  This development embeds its pure
    helpers (prefix defaulting, the sorted-list diff, the default-route
    filter) as Rocq functions, its fallible helpers in an exception
    monad, its effects (printing, waiting, sleeping) as a trace, and
    its two loops (the subscription collector and the
    scheduler loop of [main]) as functions driven by a script of what
    the outside world does at each iteration. *)

From Stdlib Require Import String Ascii List ZArith QArith Bool Arith Lia Lqa.
From Stdlib Require Import Sorting.Sorted Sorting.Permutation.
From Equations Require Import Equations.
Import ListNotations.

Local Open Scope string_scope.
Local Open Scope Z_scope.

(** ** Python values and exceptions *)

(** The exceptions the script can raise.  [ValueError] comes from
    [ipaddress.ip_address], [IndexError] from list subscripts,
    [KeyError] from dict subscripts, [UnboundLocalError] from reading a
    local that no executed statement has assigned, and [RuntimeError]
    from the database connector. *)
Inductive exn : Type :=
| ValueError
| IndexError
| KeyError
| UnboundLocalError
| RuntimeError.

Inductive result (A : Type) : Type :=
| Ok (a : A)
| Raise (e : exn).
Arguments Ok {A} a.
Arguments Raise {A} e.

Definition bind {A B : Type} (m : result A) (k : A -> result B) : result B :=
  match m with
  | Ok a => k a
  | Raise e => Raise e
  end.

Declare Scope py_scope.
Delimit Scope py_scope with py.
Notation "x <- m ;; k" := (bind m (fun x => k))
  (at level 100, m at next level, right associativity) : py_scope.
Notation "' p <- m ;; k" := (bind m (fun x => let p := x in k))
  (at level 100, p pattern, m at next level, right associativity) : py_scope.
Local Open Scope py_scope.

(** ** Strings

    Keys are ASCII text.  [lower] is [str.lower], [find] is [str.find]
    (index of the first occurrence, or -1), [split] is [str.split] with
    a one-character separator and [startswith] is [str.startswith]. *)

Definition lower_char (c : ascii) : ascii :=
  let n := nat_of_ascii c in
  if (65 <=? n)%nat && (n <=? 90)%nat then ascii_of_nat (n + 32) else c.

Fixpoint lower (s : string) : string :=
  match s with
  | EmptyString => EmptyString
  | String c s' => String (lower_char c) (lower s')
  end.

Definition find (s sub : string) : Z :=
  match index 0 sub s with
  | Some n => Z.of_nat n
  | None => -1
  end.

(** [split_from sep acc s] scans [s] with [acc] holding the characters
    of the piece being read, in reverse. *)
Fixpoint rev_string (acc s : string) : string :=
  match s with
  | EmptyString => acc
  | String c s' => rev_string (String c acc) s'
  end.

Fixpoint split_from (sep : ascii) (acc s : string) : list string :=
  match s with
  | EmptyString => [rev_string EmptyString acc]
  | String c s' =>
      if Ascii.eqb c sep
      then rev_string EmptyString acc :: split_from sep EmptyString s'
      else split_from sep (String c acc) s'
  end.

Definition split (s : string) (sep : ascii) : list string :=
  split_from sep EmptyString s.

Definition startswith (s p : string) : bool := prefix p s.

(** The double-quote character. *)
Definition DOUBLE_QUOTE : ascii := ascii_of_nat 34.

(** Python's [lst[i]] for a non-negative literal index. *)
Definition subscript {A : Type} (l : list A) (i : nat) : result A :=
  match nth_error l i with
  | Some x => Ok x
  | None => Raise IndexError
  end.

(** [c] occurs in [s]. *)
Definition has_char (c : ascii) (s : string) : bool :=
  existsb (Ascii.eqb c) (list_ascii_of_string s).

(** The text of [s] before the first [c] (all of [s] when there is
    none), and the text after it. *)
Fixpoint upto (c : ascii) (s : string) : string :=
  match s with
  | EmptyString => EmptyString
  | String a s' => if Ascii.eqb a c then EmptyString else String a (upto c s')
  end.

Fixpoint after (c : ascii) (s : string) : option string :=
  match s with
  | EmptyString => None
  | String a s' => if Ascii.eqb a c then Some s' else after c s'
  end.

(** ** Constants of the script *)

Definition ASIC_KEY_PREFIX : string := "SAI_OBJECT_TYPE_ROUTE_ENTRY:".
Definition SUBSCRIBE_WAIT_SECS : Z := 1.
Definition UNIT_TESTING : Z := 0.
Definition PREFIX_SEPARATOR : string := "/".
Definition IPV6_SEPARATOR : string := ":".
Definition MIN_SCAN_INTERVAL : Z := 10.
Definition MAX_SCAN_INTERVAL : Z := 3600.

(** ** Canonicalizer *)

Definition add_prefix (ip : string) : string :=
  if find ip IPV6_SEPARATOR =? -1
  then ip ++ PREFIX_SEPARATOR ++ "32"
  else ip ++ PREFIX_SEPARATOR ++ "128".

Definition add_prefix_ifnot (ip : string) : string :=
  if negb (find ip PREFIX_SEPARATOR =? -1) then ip else add_prefix ip.

(** The canonical form of a raw route key, as [get_routes] builds it:
    [add_prefix_ifnot(k.lower())]. *)
Definition canonicalize (k : string) : string :=
  add_prefix_ifnot (lower k).

(** ** The [ipaddress] module

    [ipaddress.ip_address] belongs to Python's standard library, not to
    the script: it is taken as a parameter.  An address object is
    represented by the two properties the script reads from it, and a
    text that the library refuses ([ValueError]) by [None]. *)

Record IPAddress : Type := mkIPAddress {
  is_link_local : bool;
  is_unspecified : bool
}.

Class ipaddress : Type := ip_address : string -> option IPAddress.

(** A reference implementation of the library for dotted-quad IPv4
    text: four decimal octets, each at most 255 and written without a
    leading zero.  Link-local is 169.254.0.0/16, unspecified is
    0.0.0.0.  It is used to run the script on concrete keys. *)

Definition is_digit (c : ascii) : bool :=
  let n := nat_of_ascii c in (48 <=? n)%nat && (n <=? 57)%nat.

Fixpoint decimal_value (acc : nat) (s : string) : option nat :=
  match s with
  | EmptyString => Some acc
  | String c s' =>
      if is_digit c
      then decimal_value (10 * acc + (nat_of_ascii c - 48)) s'
      else None
  end.

Definition parse_octet (s : string) : option nat :=
  match s with
  | EmptyString => None
  | String c rest =>
      if (3 <? String.length s)%nat then None
      else if Ascii.eqb c "0" && negb (String.eqb rest "") then None
      else match decimal_value 0 s with
           | Some n => if (n <=? 255)%nat then Some n else None
           | None => None
           end
  end.

Definition dotted_quad_address (s : string) : option IPAddress :=
  match map parse_octet (split s ".") with
  | [Some a; Some b; Some c; Some d] =>
      Some {| is_link_local := (a =? 169)%nat && (b =? 254)%nat;
              is_unspecified :=
                (a =? 0)%nat && (b =? 0)%nat && (c =? 0)%nat && (d =? 0)%nat |}
  | _ => None
  end.

#[export] Instance dotted_quad : ipaddress := dotted_quad_address.

(** ** Address predicates *)

Section Predicates.
Context {lib : ipaddress}.

Definition parse_address (s : string) : result IPAddress :=
  match ip_address s with
  | Some t => Ok t
  | None => Raise ValueError
  end.

Definition is_local (ip : string) : result bool :=
  a <- subscript (split ip "/") 0 ;;
  t <- parse_address a ;;
  Ok (is_link_local t).

(** [t.is_unspecified and ip.split("/")[1] == "0"]: the right operand
    is evaluated only when the left one is true. *)
Definition is_default_route (ip : string) : result bool :=
  a <- subscript (split ip "/") 0 ;;
  t <- parse_address a ;;
  if is_unspecified t
  then (p <- subscript (split ip "/") 1 ;; Ok (String.eqb p "0"))
  else Ok false.

Fixpoint filter_out_default_routes_from
  (lst upd : list string) : result (list string) :=
  match lst with
  | [] => Ok upd
  | rt :: lst' =>
      d <- is_default_route rt ;;
      filter_out_default_routes_from lst' (if negb d then upd ++ [rt] else upd)
  end.

Definition filter_out_default_routes (lst : list string) : result (list string) :=
  filter_out_default_routes_from lst [].

Definition checkout_rt_entry (k : string) : result (bool * option string) :=
  if startswith k ASIC_KEY_PREFIX
  then
    e <- subscript (split (lower k) DOUBLE_QUOTE) 3 ;;
    l <- is_local e ;;
    if negb l then Ok (true, Some e) else Ok (false, None)
  else Ok (false, None).
End Predicates.

(** ** Sorted-list diff *)

Definition cmps (s1 s2 : string) : Z :=
  if String.eqb s1 s2 then 0
  else if String.ltb s1 s2 then -1
  else 1.

(** The first [while] loop of [diff_sorted_lists]; it returns the two
    cursors and the two miss lists it ends with. *)
Equations? merge_loop (t1 t2 : list string) (t1_x t2_x : nat)
  (t1_miss t2_miss : list string) : nat * nat * list string * list string
  by wf ((List.length t1 - t1_x) + (List.length t2 - t2_x))%nat lt :=
merge_loop t1 t2 t1_x t2_x t1_miss t2_miss
  with lt_dec t1_x (List.length t1), lt_dec t2_x (List.length t2) := {
  | left _, left _ with Z.compare (cmps (nth t1_x t1 "") (nth t2_x t2 "")) 0 := {
    | Eq => merge_loop t1 t2 (S t1_x) (S t2_x) t1_miss t2_miss
    | Lt => merge_loop t1 t2 (S t1_x) t2_x (t1_miss ++ [nth t1_x t1 ""]) t2_miss
    | Gt => merge_loop t1 t2 t1_x (S t2_x) t1_miss (t2_miss ++ [nth t2_x t2 ""]) };
  | _, _ => (t1_x, t2_x, t1_miss, t2_miss) }.
Proof. all: lia. Qed.

(** The two trailing [while] loops, which flush what is left of a list. *)
Equations? flush_loop (t : list string) (x : nat) (miss : list string)
  : list string by wf (List.length t - x)%nat lt :=
flush_loop t x miss with lt_dec x (List.length t) := {
  | left _ => flush_loop t (S x) (miss ++ [nth x t ""]);
  | right _ => miss }.
Proof. lia. Qed.

Definition diff_sorted_lists (t1 t2 : list string) : list string * list string :=
  let '(t1_x, t2_x, t1_miss, t2_miss) := merge_loop t1 t2 0 0 [] [] in
  (flush_loop t1 t1_x t1_miss, flush_loop t2 t2_x t2_miss).

(** Python's [sorted] on a list of strings. *)
Fixpoint insert_sorted (x : string) (l : list string) : list string :=
  match l with
  | [] => [x]
  | y :: l' => if String.leb x y then x :: l else y :: insert_sorted x l'
  end.

Definition sorted (l : list string) : list string :=
  fold_right insert_sorted [] l.

(** ** Effects

    What the script does to the outside world is recorded as a trace:
    lines printed, lines sent to syslog, calls of [selector.select]
    and calls of [time.sleep], in the order they happen.  A message is
    kept as the list of its arguments, not as the formatted text. *)

Inductive piece : Type :=
| Text (s : string)
| Repr (l : list string)
| JsonList (l : list string)
| JsonDict (d : list (string * list string)).

Definition message : Type := list piece.

Inductive effect : Type :=
| Stdout (m : message)
| Syslog (lvl : Z) (m : message)
| Select (timeout : Z)
| Sleep (secs : Z).

(** How a piece of effectful code ends: it returns, it raises, or the
    script of the outside world ends while the code is still looping. *)
Inductive outcome (A : Type) : Type :=
| Returns (a : A)
| Raises (e : exn)
| Starved.
Arguments Returns {A} a.
Arguments Raises {A} e.
Arguments Starved {A}.

Definition M (A : Type) : Type := list effect * outcome A.

Definition ret {A : Type} (a : A) : M A := ([], Returns a).

Definition mbind {A B : Type} (m : M A) (k : A -> M B) : M B :=
  match m with
  | (tr, Returns a) => let (tr2, o) := k a in ((tr ++ tr2)%list, o)
  | (tr, Raises e) => (tr, Raises e)
  | (tr, Starved) => (tr, Starved)
  end.

Definition lift {A : Type} (r : result A) : M A :=
  match r with
  | Ok a => ret a
  | Raise e => ([], Raises e)
  end.

Definition emit (e : effect) : M unit := ([e], Returns tt).

Notation "x <~ m ;; k" := (mbind m (fun x => k))
  (at level 100, m at next level, right associativity) : py_scope.
Notation "' p <~ m ;; k" := (mbind m (fun x => let p := x in k))
  (at level 100, p pattern, m at next level, right associativity) : py_scope.

(** ** Logging *)

Definition LOG_ERR : Z := 3.
Definition LOG_INFO : Z := 6.
Definition LOG_DEBUG : Z := 7.

Inductive Level : Type := ERR | INFO | DEBUG.

(** The two module-level variables [report_level] and [write_to_syslog]. *)
Record LogConfig : Type := mkLogConfig {
  report_level : Z;
  write_to_syslog : bool
}.

Definition initial_config : LogConfig :=
  {| report_level := LOG_ERR; write_to_syslog := false |}.

Definition set_level (lvl : Level) (log_to_syslog : bool) (g : LogConfig) : LogConfig :=
  let g := {| report_level := report_level g; write_to_syslog := log_to_syslog |} in
  let g := match lvl with
           | INFO => {| report_level := LOG_INFO; write_to_syslog := write_to_syslog g |}
           | _ => g
           end in
  match lvl with
  | DEBUG => {| report_level := LOG_DEBUG; write_to_syslog := write_to_syslog g |}
  | _ => g
  end.

Definition print_message (g : LogConfig) (lvl : Z) (args : message) : M unit :=
  if lvl <=? report_level g
  then
    _ <~ emit (Stdout args) ;;
    if write_to_syslog g then emit (Syslog lvl args) else ret tt
  else ret tt.

(** ** The outside world during one cycle *)

(** One return of [selector.select]: how long the call blocked, the
    (key, operation) pairs that have reached the subscriber's buffer by
    the time it is drained, and what [time.time()] answers right after
    the call.  Times are in seconds. *)
Record WakeUp : Type := mkWakeUp {
  blocked : Q;
  arrived : list (string * string);
  clock : Q
}.

(** What the databases and the clock present to one run of
    [check_routes].  A [Raise] in a table field is a connector that
    fails; [asic_state] is the subscriber's buffer when it is opened;
    [collect_start] is what [time.time()] answers when the collector
    starts. *)
Record Cycle : Type := mkCycle {
  asic_state : result (list (string * string));
  route_table_keys : result (list string);
  intf_table_keys : result (list string);
  route_table_get : result (string -> list (string * string));
  collect_start : Q;
  wake_ups : list WakeUp
}.

(** Python's [int] on a float: truncation toward zero. *)
Definition int (x : Q) : Z := Z.quot (Qnum x) (Zpos (Qden x)).

Definition nonempty {A : Type} (l : list A) : bool :=
  match l with [] => false | _ :: _ => true end.

(** The [results] dict of [check_routes], in insertion order. *)
Definition mismatches : Type := list (string * list string).

(** ** Readers, collector and filters *)

(** [re.split(':', s, maxsplit=1)]. *)
Fixpoint split_once_from (sep : ascii) (acc s : string) : list string :=
  match s with
  | EmptyString => [rev_string EmptyString acc]
  | String c s' =>
      if Ascii.eqb c sep
      then [rev_string EmptyString acc; s']
      else split_once_from sep (String c acc) s'
  end.

Definition split_once (s : string) (sep : ascii) : list string :=
  split_once_from sep EmptyString s.

(** The five patterns of [local_if_re]: four literals and a literal
    followed by at least one digit; [re.match] anchors at the start. *)
Inductive pattern : Type :=
| Lit (p : string)
| LitDigits (p : string).

Definition re_match (x : pattern) (s : string) : bool :=
  match x with
  | Lit p => prefix p s
  | LitDigits p =>
      prefix p s &&
      match get (String.length p) s with
      | Some c => is_digit c
      | None => false
      end
  end.

Definition local_if_re : list pattern :=
  [Lit "eth0"; Lit "lo"; Lit "docker0"; Lit "tun0"; LitDigits "Loopback"].

(** [dict(fvs)[key]]: the last pair with that key wins. *)
Fixpoint dict_get (fvs : list (string * string)) (key : string) : result string :=
  match fvs with
  | [] => Raise KeyError
  | (k, v) :: fvs' =>
      match dict_get fvs' key with
      | Ok v' => Ok v'
      | Raise _ => if String.eqb k key then Ok v else Raise KeyError
      end
  end.

Section Engine.
Context {lib : ipaddress}.
Variable g : LogConfig.

(** The [while True] loop of [get_route_entries]: pop until the
    buffer answers an empty key.  It returns what stays buffered. *)
Fixpoint pop_route_entries (buffer : list (string * string)) (rt : list string)
  : result (list (string * string) * list string) :=
  match buffer with
  | [] => Ok ([], rt)
  | (k, _) :: buffer' =>
      if String.eqb k "" then Ok (buffer', rt)
      else
        ' (res, e) <- checkout_rt_entry k ;;
        pop_route_entries buffer'
          (match res, e with
           | true, Some e => rt ++ [e]
           | _, _ => rt
           end)
  end.

Definition get_route_entries (c : Cycle)
  : M (list (string * string) * list string) :=
  subs <~ lift (asic_state c) ;;
  _ <~ print_message g LOG_DEBUG [Text "ASIC DB connected"] ;;
  ' (subs, rt) <~ lift (pop_route_entries subs []) ;;
  _ <~ print_message g LOG_DEBUG [JsonDict [("ASIC_ROUTE_ENTRY", sorted rt)]] ;;
  ret (subs, sorted rt).

(** The inner [while True] loop of [get_subscribe_updates]. *)
Fixpoint pop_updates (buffer : list (string * string)) (adds deletes : list string)
  : result (list (string * string) * list string * list string) :=
  match buffer with
  | [] => Ok ([], adds, deletes)
  | (key, op) :: buffer' =>
      if String.eqb key "" then Ok (buffer', adds, deletes)
      else
        ' (res, e) <- checkout_rt_entry key ;;
        match res, e with
        | true, Some e =>
            if String.eqb op "SET" then pop_updates buffer' (adds ++ [e]) deletes
            else if String.eqb op "DEL" then pop_updates buffer' adds (deletes ++ [e])
            else pop_updates buffer' adds deletes
        | _, _ => pop_updates buffer' adds deletes
        end
  end.

(** The outer loop [while t_wait > 0]; each iteration consumes one
    wake-up of the script. *)
Fixpoint collect_loop (t_end : Q) (t_wait : Z) (script : list WakeUp)
  (subs : list (string * string)) (adds deletes : list string)
  : M (list string * list string) :=
  if t_wait >? 0 then
    match script with
    | [] => ([], Starved)
    | w :: script' =>
        _ <~ emit (Select t_wait) ;;
        let t_wait := int (t_end - clock w) in
        ' (subs, adds, deletes) <~
          lift (pop_updates (subs ++ arrived w) adds deletes) ;;
        collect_loop t_end t_wait script' subs adds deletes
    end
  else ret (adds, deletes).

Definition get_subscribe_updates (c : Cycle) (subs : list (string * string))
  : M (list string * list string) :=
  let adds := [] in
  let deletes := [] in
  let t_end := (collect_start c + inject_Z SUBSCRIBE_WAIT_SECS)%Q in
  let t_wait := SUBSCRIBE_WAIT_SECS in
  ' (adds, deletes) <~ collect_loop t_end t_wait (wake_ups c) subs adds deletes ;;
  _ <~ print_message g LOG_DEBUG [Text "adds="; Repr adds] ;;
  _ <~ print_message g LOG_DEBUG [Text "dels="; Repr deletes] ;;
  ret (sorted adds, sorted deletes).

Fixpoint valid_routes (keys valid_rt : list string) : result (list string) :=
  match keys with
  | [] => Ok valid_rt
  | k :: keys' =>
      l <- is_local k ;;
      valid_routes keys'
        (if negb l then valid_rt ++ [add_prefix_ifnot (lower k)] else valid_rt)
  end.

Definition get_routes (c : Cycle) : M (list string) :=
  keys <~ lift (route_table_keys c) ;;
  _ <~ print_message g LOG_DEBUG [Text "APPL DB connected for routes"] ;;
  valid_rt <~ lift (valid_routes keys []) ;;
  _ <~ print_message g LOG_DEBUG [JsonDict [("ROUTE_TABLE", sorted valid_rt)]] ;;
  ret (sorted valid_rt).

Fixpoint interface_addresses (keys intf : list string) : result (list string) :=
  match keys with
  | [] => Ok intf
  | k :: keys' =>
      let lst := split_once (lower k) ":" in
      if (List.length lst =? 1)%nat then interface_addresses keys' intf
      else
        rest <- subscript lst 1 ;;
        a <- subscript (split rest "/") 0 ;;
        let ip := add_prefix a in
        l <- is_local ip ;;
        interface_addresses keys' (if negb l then intf ++ [ip] else intf)
  end.

Definition get_interfaces (c : Cycle) : M (list string) :=
  keys <~ lift (intf_table_keys c) ;;
  _ <~ print_message g LOG_DEBUG [Text "APPL DB connected for interfaces"] ;;
  intf <~ lift (interface_addresses keys []) ;;
  _ <~ print_message g LOG_DEBUG [JsonDict [("APPL_DB_INTF", sorted intf)]] ;;
  ret (sorted intf).

Fixpoint keep_non_local (tbl_get : string -> list (string * string))
  (keys rt : list string) : result (list string) :=
  match keys with
  | [] => Ok rt
  | k :: keys' =>
      let e := tbl_get k in
      if negb (nonempty e) then keep_non_local tbl_get keys' (rt ++ [k])
      else
        ifname <- dict_get e "ifname" ;;
        if forallb (fun x => negb (re_match x ifname)) local_if_re
        then keep_non_local tbl_get keys' (rt ++ [k])
        else keep_non_local tbl_get keys' rt
  end.

Definition filter_out_local_interfaces (c : Cycle) (keys : list string)
  : M (list string) :=
  tbl_get <~ lift (route_table_get c) ;;
  lift (keep_non_local tbl_get keys []).
End Engine.

(** ** The reconciliation cycle *)

(** Reading a local variable: [None] is a name no executed statement
    has bound. *)
Definition read_local {A : Type} (v : option A) : M A :=
  match v with
  | Some a => ret a
  | None => ([], Raises UnboundLocalError)
  end.

Section Cycle.
Context {lib : ipaddress}.
Variable g : LogConfig.

Definition check_routes (c : Cycle) : M (Z * option mismatches) :=
  ' (subs, rt_asic) <~ get_route_entries g c ;;
  rt_appl <~ get_routes g c ;;
  intf_appl <~ get_interfaces g c ;;
  let '(rt_appl_miss, rt_asic_miss) := diff_sorted_lists rt_appl rt_asic in
  let '(_, rt_asic_miss) := diff_sorted_lists intf_appl rt_asic_miss in
  rt_asic_miss <~ lift (filter_out_default_routes rt_asic_miss) ;;
  let '(intf_appl_miss, _) := diff_sorted_lists intf_appl rt_asic in
  rt_appl_miss <~
    (if nonempty rt_appl_miss
     then filter_out_local_interfaces c rt_appl_miss
     else ret rt_appl_miss) ;;
  ' (rt_appl_miss, rt_asic_miss, adds, deletes) <~
    (if nonempty rt_appl_miss || nonempty rt_asic_miss
     then
       ' (adds, deletes) <~ get_subscribe_updates g c subs ;;
       let '(rt_appl_miss, _) := diff_sorted_lists rt_appl_miss adds in
       let '(rt_asic_miss, _) := diff_sorted_lists rt_asic_miss deletes in
       ret (rt_appl_miss, rt_asic_miss, Some adds, Some deletes)
     else ret (rt_appl_miss, rt_asic_miss, None, None)) ;;
  let results : mismatches := [] in
  let results :=
    if nonempty rt_appl_miss
    then (results ++ [("missed_ROUTE_TABLE_routes", rt_appl_miss)])%list
    else results in
  let results :=
    if nonempty intf_appl_miss
    then (results ++ [("missed_INTF_TABLE_entries", intf_appl_miss)])%list
    else results in
  let results :=
    if nonempty rt_asic_miss
    then (results ++ [("Unaccounted_ROUTE_ENTRY_TABLE_entries", rt_asic_miss)])%list
    else results in
  if nonempty results
  then
    _ <~ print_message g LOG_ERR
           [Text "Failure results: {"; JsonDict results; Text "}"] ;;
    _ <~ print_message g LOG_ERR
           [Text "Failed. Look at reported mismatches above"] ;;
    adds <~ read_local adds ;;
    _ <~ print_message g LOG_ERR [Text "add: {"; JsonList adds; Text "}"] ;;
    deletes <~ read_local deletes ;;
    _ <~ print_message g LOG_ERR [Text "del: {"; JsonList deletes; Text "}"] ;;
    ret (-1, Some results)
  else
    _ <~ print_message g LOG_INFO [Text "All good!"] ;;
    ret (0, None).
End Cycle.

(** ** Scheduler *)

Record Args : Type := mkArgs {
  mode : Level;
  interval : Z;
  log_to_syslog : bool
}.

(** The value of the local [interval] of [main] when its loop starts. *)
Definition scan_interval (requested : Z) : Z :=
  let interval := 0 in
  if negb (requested =? 0)
  then
    let interval :=
      if requested <? MIN_SCAN_INTERVAL then MIN_SCAN_INTERVAL
      else if requested >? MAX_SCAN_INTERVAL then MAX_SCAN_INTERVAL
      else requested in
    if negb (UNIT_TESTING =? 0) then 1 else interval
  else interval.

Section Scheduler.
Context {lib : ipaddress}.

(** [while True] of [main]; each iteration consumes the next cycle
    of the outside world. *)
Fixpoint main_loop (g : LogConfig) (interval : Z) (cycles : list Cycle)
  : M (Z * option mismatches) :=
  match cycles with
  | [] => ([], Starved)
  | c :: cycles' =>
      r <~ check_routes g c ;;
      if negb (interval =? 0)
      then
        _ <~ emit (Sleep interval) ;;
        if negb (UNIT_TESTING =? 0) then ret r
        else main_loop g interval cycles'
      else ret r
  end.

Definition main (args : Args) (cycles : list Cycle) : M (Z * option mismatches) :=
  let g := set_level (mode args) (log_to_syslog args) initial_config in
  main_loop g (scan_interval (interval args)) cycles.
End Scheduler.

(** ** Vocabulary of the specification *)

Definition mem (x : string) (l : list string) : bool :=
  existsb (String.eqb x) l.

(** Sorted ascending for the order of [str]. *)
Definition ascending (l : list string) : Prop :=
  Sorted (fun x y => String.leb x y = true) l.

(** The two-pointer merge of the specification, on what is left of
    each list: equal heads are dropped from both, the smaller head is
    emitted to its own side, and when one list runs out the other is
    flushed. *)
Fixpoint merge_diff (l1 : list string) : list string -> list string * list string :=
  fix against (l2 : list string) : list string * list string :=
    match l1, l2 with
    | [], _ => ([], l2)
    | _, [] => (l1, [])
    | x :: l1', y :: l2' =>
        match Z.compare (cmps x y) 0 with
        | Eq => merge_diff l1' l2'
        | Lt => let '(a, b) := merge_diff l1' l2 in (x :: a, b)
        | Gt => let '(a, b) := against l2' in (a, y :: b)
        end
    end.

(** Ascending with no two equal neighbours. *)
Definition strictly_ascending (l : list string) : Prop :=
  StronglySorted (fun x y => String.ltb x y = true) l.

Section Vocabulary.
Context {lib : ipaddress}.

(** [is_default_route] as a test: a key on which it raises is not a
    default route. *)
Definition is_default (rt : string) : bool :=
  match is_default_route rt with
  | Ok b => b
  | Raise _ => false
  end.
End Vocabulary.

(** An effect other than a call of [time.sleep]. *)
Definition not_sleep (ef : effect) : Prop :=
  match ef with
  | Sleep _ => False
  | _ => True
  end.

(** A piece of code whose trace has no call of [time.sleep]. *)
Definition sleepless {A : Type} (m : M A) : Prop := Forall not_sleep (fst m).

(** A piece of code that needs no script of the outside world to end. *)
Definition finishes {A : Type} (m : M A) : Prop := snd m <> Starved.

(** The timeouts of the calls of [selector.select] in a trace. *)
Fixpoint select_calls (tr : list effect) : list Z :=
  match tr with
  | [] => []
  | Select t :: tr' => t :: select_calls tr'
  | _ :: tr' => select_calls tr'
  end.

(** The time spent blocked in the wake-ups [ws]. *)
Definition total_blocked (ws : list WakeUp) : Q :=
  fold_right (fun w acc => (blocked w + acc)%Q) 0%Q ws.

(** A script that the wait primitive and the clock can produce, for a
    loop that is about to wait [t_wait] seconds after reading [prev]
    on the clock: a call of [select] blocks for no longer than its
    timeout, and the clock does not run backwards, so the reading after
    a call is at least the reading before it plus the time blocked. *)
Fixpoint plausible (t_end : Q) (t_wait : Z) (prev : Q) (script : list WakeUp) : Prop :=
  match script with
  | [] => True
  | w :: script' =>
      if t_wait >? 0
      then (0 <= blocked w)%Q /\ (blocked w <= inject_Z t_wait)%Q /\
           (prev + blocked w <= clock w)%Q /\
           plausible t_end (int (t_end - clock w)) (clock w) script'
      else True
  end.

Section ReaderVocabulary.
Context {lib : ipaddress}.

(** [is_local] as a test: a key on which it raises is not counted as
    link-local. *)
Definition link_local (ip : string) : bool :=
  match is_local ip with
  | Ok b => b
  | Raise _ => false
  end.

(** A route that [filter_out_local_interfaces] drops: its entry has
    an [ifname] that one of the patterns of [local_if_re] matches. *)
Definition on_local_interface (tbl_get : string -> list (string * string))
  (k : string) : bool :=
  match dict_get (tbl_get k) "ifname" with
  | Ok ifname => existsb (fun x => re_match x ifname) local_if_re
  | Raise _ => false
  end.
End ReaderVocabulary.

(** The address [get_interfaces] reads from an INTF_TABLE key: what
    follows the first colon, up to the slash, with a host prefix. *)
Definition interface_address (k : string) : option string :=
  option_map (fun rest => add_prefix (upto "/" rest)) (after ":" (lower k)).

(** The dict [check_routes] builds from its three lists. *)
Definition mismatch_set (rt_appl_miss intf_appl_miss rt_asic_miss : list string)
  : mismatches :=
  ((if nonempty rt_appl_miss
    then [("missed_ROUTE_TABLE_routes", rt_appl_miss)] else []) ++
   (if nonempty intf_appl_miss
    then [("missed_INTF_TABLE_entries", intf_appl_miss)] else []) ++
   (if nonempty rt_asic_miss
    then [("Unaccounted_ROUTE_ENTRY_TABLE_entries", rt_asic_miss)] else []))%list.

(** A piece of code whose trace has no call of [selector.select]. *)
Definition waitless {A : Type} (m : M A) : Prop := select_calls (fst m) = [].

(** ** Sample inputs *)

(** An ASIC_STATE key of a route entry with destination [dest]. *)
Definition asic_key (dest : string) : string :=
  let q := String DOUBLE_QUOTE EmptyString in
  ASIC_KEY_PREFIX ++ "{" ++ q ++ "dest" ++ q ++ ":" ++ q ++ dest ++ q ++ ","
    ++ q ++ "switch_id" ++ q ++ ":" ++ q ++ "oid:0x21000000000000" ++ q ++ "}".

(** Scenario D of the specification: the forwarding plane holds the
    declared route and, besides it, the default route. *)
Definition scenario_D : Cycle :=
  {| asic_state := Ok [(asic_key "10.0.0.0/24", "SET"); (asic_key "0.0.0.0/0", "SET")];
     route_table_keys := Ok ["10.0.0.0/24"];
     intf_table_keys := Ok [];
     route_table_get := Ok (fun _ => []);
     collect_start := 0;
     wake_ups := [] |}.

(** An interface address with no forwarding entry, and nothing else. *)
Definition interface_only : Cycle :=
  {| asic_state := Ok [];
     route_table_keys := Ok [];
     intf_table_keys := Ok ["Ethernet0:10.0.0.1/24"];
     route_table_get := Ok (fun _ => []);
     collect_start := 0;
     wake_ups := [] |}.

(** A route table with one key that is not an address. *)
Definition malformed_key : Cycle :=
  {| asic_state := Ok [(asic_key "10.0.0.0/24", "SET")];
     route_table_keys := Ok ["10.0.0.0/24"; "not-an-address"];
     intf_table_keys := Ok [];
     route_table_get := Ok (fun _ => []);
     collect_start := 0;
     wake_ups := [] |}.

(** A cycle in which APPL-DB cannot be reached. *)
Definition store_down : Cycle :=
  {| asic_state := Ok [(asic_key "10.0.0.0/24", "SET")];
     route_table_keys := Raise RuntimeError;
     intf_table_keys := Raise RuntimeError;
     route_table_get := Raise RuntimeError;
     collect_start := 0;
     wake_ups := [] |}.

(** A cycle in which both planes agree. *)
Definition in_sync : Cycle :=
  {| asic_state := Ok [(asic_key "10.0.0.0/24", "SET")];
     route_table_keys := Ok ["10.0.0.0/24"];
     intf_table_keys := Ok [];
     route_table_get := Ok (fun _ => []);
     collect_start := 0;
     wake_ups := [] |}.

(** A route is declared and not yet realized; the subscriber wakes up
    a tenth of a second into the window with nothing to report, and
    again after the window is over. *)
Definition early_wake : Cycle :=
  {| asic_state := Ok [];
     route_table_keys := Ok ["10.0.0.0/24"];
     intf_table_keys := Ok [];
     route_table_get := Ok (fun _ => []);
     collect_start := 0;
     wake_ups := [ {| blocked := 1 # 10; arrived := []; clock := 1 # 10 |};
                   {| blocked := 9 # 10; arrived := []; clock := 1 |} ] |}.

(** The same cycle with a clock that does not advance during the
    first two wake-ups. *)
Definition frozen_clock : Cycle :=
  {| asic_state := Ok [];
     route_table_keys := Ok ["10.0.0.0/24"];
     intf_table_keys := Ok [];
     route_table_get := Ok (fun _ => []);
     collect_start := 0;
     wake_ups := [ {| blocked := 0; arrived := []; clock := 0 |};
                   {| blocked := 0; arrived := []; clock := 0 |};
                   {| blocked := 1 # 2; arrived := []; clock := 1 # 2 |} ] |}.

(** A route is declared and not yet realized; the subscriber wakes up
    a tenth of a second into the window for an event of another
    table, and the SET of the route arrives half a second into the
    window. *)
Definition late_event : Cycle :=
  {| asic_state := Ok [];
     route_table_keys := Ok ["10.0.0.0/24"];
     intf_table_keys := Ok [];
     route_table_get := Ok (fun _ => []);
     collect_start := 0;
     wake_ups := [ {| blocked := 1 # 10;
                      arrived := [ ("SAI_OBJECT_TYPE_SWITCH:oid:0x21000000000000", "SET") ];
                      clock := 1 # 10 |};
                   {| blocked := 4 # 10;
                      arrived := [ (asic_key "10.0.0.0/24", "SET") ];
                      clock := 1 # 2 |} ] |}.

(** Scenario B of the specification: a declared route is not in the
    forwarding plane yet, and its SET arrives during the window,
    together with an event of another table and an event of another
    operation. *)
Definition scenario_B : Cycle :=
  {| asic_state := Ok [];
     route_table_keys := Ok ["10.0.0.0/24"];
     intf_table_keys := Ok [];
     route_table_get := Ok (fun _ => []);
     collect_start := 0;
     wake_ups :=
       [ {| blocked := 1 # 4;
            arrived := [ ("SAI_OBJECT_TYPE_SWITCH:oid:0x21000000000000", "SET");
                         (asic_key "10.0.0.0/24", "SET");
                         (asic_key "10.9.0.0/16", "DEL");
                         (asic_key "10.8.0.0/16", "HSET") ];
            clock := 1 # 4 |} ] |}.

(** Attributes of three routes: one through a front-panel port, one
    through the management port, one through a loopback. *)
Definition route_attrs (k : string) : list (string * string) :=
  if String.eqb k "10.0.0.0/24" then [("nexthop", "10.0.0.1"); ("ifname", "Ethernet0")]
  else if String.eqb k "10.1.0.0/24" then [("nexthop", "10.1.0.1"); ("ifname", "eth0")]
  else if String.eqb k "10.2.0.0/24" then [("ifname", "Loopback0")]
  else [].

(** A cycle whose three declared routes are all missing from the
    forwarding plane. *)
Definition via_local : Cycle :=
  {| asic_state := Ok [];
     route_table_keys := Ok ["10.0.0.0/24"; "10.1.0.0/24"; "10.2.0.0/24"];
     intf_table_keys := Ok [];
     route_table_get := Ok route_attrs;
     collect_start := 0;
     wake_ups := [ {| blocked := 1; arrived := []; clock := 1 |} ] |}.

(** * Properties *)

(** ** Strings *)

Lemma lower_char_idempotent (c : ascii) : lower_char (lower_char c) = lower_char c.
Proof. destruct c as [[] [] [] [] [] [] [] []]; reflexivity. Qed.

Lemma lower_idempotent (s : string) : lower (lower s) = lower s.
Proof.
  induction s as [|c s IH]; simpl; [reflexivity|].
  now rewrite lower_char_idempotent, IH.
Qed.

Lemma lower_append (s1 s2 : string) : lower (s1 ++ s2) = lower s1 ++ lower s2.
Proof. induction s1 as [|c s1 IH]; simpl; [reflexivity | now rewrite IH]. Qed.

Lemma lower_char_slash (c : ascii) :
  Ascii.eqb "/" (lower_char c) = Ascii.eqb "/" c.
Proof. destruct c as [[] [] [] [] [] [] [] []]; reflexivity. Qed.

Lemma lower_char_colon (c : ascii) :
  Ascii.eqb ":" (lower_char c) = Ascii.eqb ":" c.
Proof. destruct c as [[] [] [] [] [] [] [] []]; reflexivity. Qed.

Lemma has_char_lower (c : ascii) (s : string) :
  (forall a, Ascii.eqb c (lower_char a) = Ascii.eqb c a) ->
  has_char c (lower s) = has_char c s.
Proof.
  intros Hc. unfold has_char.
  induction s as [|a s IH]; simpl; [reflexivity|].
  now rewrite Hc, IH.
Qed.

Lemma has_char_append (c : ascii) (s1 s2 : string) :
  has_char c (s1 ++ s2) = has_char c s1 || has_char c s2.
Proof.
  unfold has_char.
  induction s1 as [|a s1 IH]; simpl; [reflexivity|].
  now rewrite IH, orb_assoc.
Qed.

(** [str.find] with a one-character needle answers -1 exactly when
    the character does not occur. *)
Lemma find_char (c : ascii) (s : string) :
  (find s (String c EmptyString) =? -1) = negb (has_char c s).
Proof.
  unfold find, has_char.
  assert (H : forall s,
    match index 0 (String c EmptyString) s with
    | Some _ => true | None => false end
    = existsb (Ascii.eqb c) (list_ascii_of_string s)).
  { clear s. induction s as [|a s IH]; [reflexivity|].
    cbn [index prefix list_ascii_of_string existsb].
    destruct (ascii_dec c a) as [->|Hne].
    - rewrite Ascii.eqb_refl. destruct s; reflexivity.
    - rewrite (proj2 (Ascii.eqb_neq c a) Hne). simpl. rewrite <- IH.
      destruct (index 0 (String c "") s); reflexivity. }
  rewrite <- H. destruct (index 0 (String c "") s) as [n|]; [|reflexivity].
  apply Z.eqb_neq. lia.
Qed.

(** ** Canonicalizer *)

Lemma canonicalize_cases (s : string) :
  canonicalize s =
    if has_char "/" s then lower s
    else if has_char ":" s then lower s ++ "/128"
    else lower s ++ "/32".
Proof.
  unfold canonicalize, add_prefix_ifnot, add_prefix, PREFIX_SEPARATOR, IPV6_SEPARATOR.
  rewrite !find_char, negb_involutive.
  rewrite (has_char_lower "/" s lower_char_slash).
  rewrite (has_char_lower ":" s lower_char_colon).
  destruct (has_char "/" s); [reflexivity|].
  destruct (has_char ":" s); reflexivity.
Qed.

(** C8. A key with no slash gets /32 appended when it has no colon and
    /128 when it has one; a key that has a slash is only lowercased;
    and the three sample keys of the specification canonicalize as it
    says. *)
Theorem canonicalize_prefix_defaulting :
  (forall s : string,
     canonicalize s =
       if has_char "/" s then lower s
       else if has_char ":" s then lower s ++ "/128"
       else lower s ++ "/32") /\
  canonicalize "10.0.0.1" = "10.0.0.1/32" /\
  canonicalize "fe80::1" = "fe80::1/128" /\
  canonicalize "10.0.0.0/0" = "10.0.0.0/0".
Proof.
  split; [exact canonicalize_cases|].
  repeat split; reflexivity.
Qed.

(** C9. Canonicalizing a canonical key changes nothing. *)
Theorem canonicalize_idempotent (s : string) :
  canonicalize (canonicalize s) = canonicalize s.
Proof.
  rewrite (canonicalize_cases (canonicalize s)), (canonicalize_cases s).
  destruct (has_char "/" s) eqn:Hs.
  - rewrite (has_char_lower "/" s lower_char_slash), Hs.
    apply lower_idempotent.
  - destruct (has_char ":" s);
      rewrite has_char_append; simpl (has_char "/" "/128"); simpl (has_char "/" "/32");
      rewrite orb_true_r, lower_append, lower_idempotent; reflexivity.
Qed.

(** ** The order on strings *)

Lemma ascii_compare_refl (c : ascii) : Ascii.compare c c = Eq.
Proof. unfold Ascii.compare. apply N.compare_refl. Qed.

Lemma string_compare_refl (s : string) : String.compare s s = Eq.
Proof.
  induction s as [|c s IH]; simpl; [reflexivity|].
  now rewrite ascii_compare_refl.
Qed.

Lemma string_compare_eq (s1 s2 : string) : String.compare s1 s2 = Eq <-> s1 = s2.
Proof.
  split; [apply String.compare_eq_iff|].
  intros ->. apply string_compare_refl.
Qed.

Lemma string_compare_trans (s1 s2 s3 : string) :
  String.compare s1 s2 = Lt -> String.compare s2 s3 = Lt -> String.compare s1 s3 = Lt.
Proof.
  revert s2 s3.
  induction s1 as [|a s1 IH]; intros [|b s2] [|c s3]; simpl; try congruence.
  unfold Ascii.compare.
  destruct (N.compare_spec (N_of_ascii a) (N_of_ascii b)) as [Hab|Hab|Hab];
    destruct (N.compare_spec (N_of_ascii b) (N_of_ascii c)) as [Hbc|Hbc|Hbc];
    try congruence; intros H12 H23.
  - rewrite Hab, Hbc, N.compare_refl. eauto.
  - rewrite Hab. now apply N.compare_lt_iff in Hbc as ->.
  - rewrite <- Hbc. now apply N.compare_lt_iff in Hab as ->.
  - assert (H : (N_of_ascii a < N_of_ascii c)%N) by lia.
    now apply N.compare_lt_iff in H as ->.
Qed.

Lemma ltb_lt (s1 s2 : string) : String.ltb s1 s2 = true <-> String.compare s1 s2 = Lt.
Proof. unfold String.ltb. destruct (String.compare s1 s2); split; congruence. Qed.

Lemma ltb_irrefl (s : string) : String.ltb s s = false.
Proof. unfold String.ltb. now rewrite string_compare_refl. Qed.

Lemma ltb_trans (s1 s2 s3 : string) :
  String.ltb s1 s2 = true -> String.ltb s2 s3 = true -> String.ltb s1 s3 = true.
Proof. rewrite !ltb_lt. apply string_compare_trans. Qed.

Lemma ltb_asym (s1 s2 : string) : String.ltb s1 s2 = true -> String.ltb s2 s1 = false.
Proof.
  intros H. destruct (String.ltb s2 s1) eqn:H'; [|reflexivity].
  pose proof (ltb_trans _ _ _ H H') as Hc. now rewrite ltb_irrefl in Hc.
Qed.

Lemma leb_neq_ltb (s1 s2 : string) :
  String.leb s1 s2 = true -> s1 <> s2 -> String.ltb s1 s2 = true.
Proof.
  unfold String.leb, String.ltb.
  destruct (String.compare s1 s2) eqn:H; try congruence.
  apply String.compare_eq_iff in H. congruence.
Qed.

(** The three answers of [cmps]. *)
Lemma cmps_cases (s1 s2 : string) :
  (s1 = s2 /\ cmps s1 s2 = 0) \/
  (String.ltb s1 s2 = true /\ cmps s1 s2 = -1) \/
  (String.ltb s2 s1 = true /\ cmps s1 s2 = 1).
Proof.
  unfold cmps. destruct (String.eqb_spec s1 s2) as [->|Hne]; [now left|].
  right. destruct (String.ltb s1 s2) eqn:Hlt; [now left|right].
  split; [|reflexivity].
  unfold String.ltb in *. rewrite String.compare_antisym in Hlt.
  destruct (String.compare s2 s1) eqn:Hc; simpl in *; try congruence.
  apply String.compare_eq_iff in Hc. congruence.
Qed.

(** ** The loops of [diff_sorted_lists] *)

(** One turn of each [while] loop, as the script writes it. *)
Lemma flush_loop_step (t : list string) (x : nat) (miss : list string) :
  flush_loop t x miss =
    if (x <? List.length t)%nat
    then flush_loop t (S x) (miss ++ [nth x t ""])
    else miss.
Proof.
  rewrite flush_loop_equation_1.
  destruct (lt_dec x (List.length t)) as [H|H].
  - now pose proof (proj2 (Nat.ltb_lt _ _) H) as ->.
  - now pose proof (proj2 (Nat.ltb_nlt _ _) H) as ->.
Qed.

Lemma merge_loop_step (t1 t2 : list string) (t1_x t2_x : nat)
  (t1_miss t2_miss : list string) :
  merge_loop t1 t2 t1_x t2_x t1_miss t2_miss =
    if (t1_x <? List.length t1)%nat && (t2_x <? List.length t2)%nat
    then
      match cmps (nth t1_x t1 "") (nth t2_x t2 "") ?= 0 with
      | Eq => merge_loop t1 t2 (S t1_x) (S t2_x) t1_miss t2_miss
      | Lt => merge_loop t1 t2 (S t1_x) t2_x (t1_miss ++ [nth t1_x t1 ""]) t2_miss
      | Gt => merge_loop t1 t2 t1_x (S t2_x) t1_miss (t2_miss ++ [nth t2_x t2 ""])
      end
    else (t1_x, t2_x, t1_miss, t2_miss).
Proof.
  rewrite merge_loop_equation_1.
  unfold merge_loop_unfold_clause_1, merge_loop_unfold_clause_1_clause_1,
    merge_loop_unfold_clause_1_clause_1_clause_1.
  destruct (lt_dec t1_x (List.length t1)) as [H1|H1];
    [pose proof (proj2 (Nat.ltb_lt _ _) H1) as ->
    |now pose proof (proj2 (Nat.ltb_nlt _ _) H1) as ->].
  destruct (lt_dec t2_x (List.length t2)) as [H2|H2];
    [pose proof (proj2 (Nat.ltb_lt _ _) H2) as ->
    |now pose proof (proj2 (Nat.ltb_nlt _ _) H2) as ->].
  cbn [andb].
  destruct (cmps (nth t1_x t1 "") (nth t2_x t2 "") ?= 0); reflexivity.
Qed.

Lemma skipn_nth (t : list string) (x : nat) :
  (x < List.length t)%nat -> skipn x t = nth x t "" :: skipn (S x) t.
Proof.
  revert x. induction t as [|a t IH]; intros [|x] Hlt; simpl in *; try lia.
  - reflexivity.
  - apply IH. lia.
Qed.

Lemma flush_loop_skipn (t : list string) (n x : nat) (miss : list string) :
  (List.length t - x <= n)%nat ->
  flush_loop t x miss = (miss ++ skipn x t)%list.
Proof.
  revert x miss. induction n as [|n IH]; intros x miss Hn;
    rewrite flush_loop_step;
    destruct (Nat.ltb_spec x (List.length t)) as [Hlt|Hge]; try lia.
  - rewrite skipn_all2 by lia. now rewrite app_nil_r.
  - rewrite IH by lia. rewrite <- app_assoc. f_equal.
    symmetry. now apply skipn_nth.
  - rewrite skipn_all2 by lia. now rewrite app_nil_r.
Qed.

Lemma merge_diff_exit (l1 l2 : list string) :
  l1 = [] \/ l2 = [] -> merge_diff l1 l2 = (l1, l2).
Proof. intros [-> | ->]; [destruct l2|destruct l1]; reflexivity. Qed.

(** The index loops compute the merge of the two suffixes they have
    not read yet. *)
Lemma merge_loop_merge_diff (t1 t2 : list string) (n t1_x t2_x : nat)
  (t1_miss t2_miss : list string) :
  ((List.length t1 - t1_x) + (List.length t2 - t2_x) <= n)%nat ->
  (let '(x1, x2, m1, m2) := merge_loop t1 t2 t1_x t2_x t1_miss t2_miss in
   (flush_loop t1 x1 m1, flush_loop t2 x2 m2)) =
  (let '(a, b) := merge_diff (skipn t1_x t1) (skipn t2_x t2) in
   ((t1_miss ++ a)%list, (t2_miss ++ b)%list)).
Proof.
  revert t1_x t2_x t1_miss t2_miss.
  induction n as [|n IH]; intros t1_x t2_x t1_miss t2_miss Hn;
    rewrite merge_loop_step;
    destruct (Nat.ltb_spec t1_x (List.length t1)) as [H1|H1];
    destruct (Nat.ltb_spec t2_x (List.length t2)) as [H2|H2];
    cbn [andb]; try lia.
  all: try solve
    [ rewrite !(flush_loop_skipn _ (List.length t1 + List.length t2)) by lia;
      rewrite merge_diff_exit
        by (first [left; apply skipn_all2; lia | right; apply skipn_all2; lia]);
      reflexivity ].
  rewrite (skipn_nth t1 t1_x H1), (skipn_nth t2 t2_x H2).
  cbn [merge_diff].
  destruct (cmps (nth t1_x t1 "") (nth t2_x t2 "") ?= 0) eqn:Hc.
  - apply IH. lia.
  - rewrite IH by lia. rewrite (skipn_nth t2 t2_x H2).
    destruct (merge_diff (skipn (S t1_x) t1) _) as [a b].
    now rewrite <- !app_assoc.
  - rewrite IH by lia. rewrite (skipn_nth t1 t1_x H1).
    destruct (skipn (S t2_x) t2) as [|y l2]; cbn [merge_diff].
    + now rewrite <- !app_assoc.
    + match goal with |- context [match ?c with Eq => _ | Lt => _ | Gt => _ end] =>
        destruct c end.
      all: repeat match goal with |- context [let '(_, _) := ?p in _] =>
        destruct p end; now rewrite <- !app_assoc.
Qed.

Lemma diff_sorted_lists_merge_diff (t1 t2 : list string) :
  diff_sorted_lists t1 t2 = merge_diff t1 t2.
Proof.
  unfold diff_sorted_lists.
  pose proof (merge_loop_merge_diff t1 t2 (List.length t1 + List.length t2) 0 0 [] []) as H.
  destruct (merge_loop t1 t2 0 0 [] []) as [[[x1 x2] m1] m2].
  rewrite H by lia. simpl. now destruct (merge_diff t1 t2).
Qed.

(** ** The diff of two ascending lists *)

Lemma leb_cases (s1 s2 : string) :
  String.leb s1 s2 = true <-> s1 = s2 \/ String.ltb s1 s2 = true.
Proof.
  unfold String.leb, String.ltb.
  destruct (String.compare s1 s2) eqn:H; split; try tauto; try congruence.
  - intros _. left. now apply String.compare_eq_iff.
  - intros [-> | ?]; [|discriminate]. now rewrite string_compare_refl in H.
Qed.

Lemma ascending_strict (l : list string) :
  ascending l -> NoDup l -> strictly_ascending l.
Proof.
  unfold ascending, strictly_ascending.
  induction l as [|x l IH]; intros Hs Hd; [constructor|].
  inversion Hs as [|? ? Hs' Hhd]; subst. inversion Hd as [|? ? Hx Hd']; subst.
  specialize (IH Hs' Hd'). constructor; [exact IH|].
  destruct l as [|y l]; [constructor|].
  inversion Hhd as [|? ? Hxy]; subst.
  assert (Hlt : String.ltb x y = true).
  { apply leb_neq_ltb; [exact Hxy|]. intros ->. apply Hx. now left. }
  constructor; [exact Hlt|].
  inversion IH as [|? ? _ Hall]; subst.
  eapply Forall_impl; [|exact Hall].
  intros z Hz. exact (ltb_trans _ _ _ Hlt Hz).
Qed.

Lemma strictly_ascending_ascending (l : list string) :
  strictly_ascending l -> ascending l /\ NoDup l.
Proof.
  unfold ascending, strictly_ascending.
  induction 1 as [|x l Hs [IHa IHd] Hall]; [split; constructor|].
  split.
  - constructor; [exact IHa|].
    destruct l as [|y l]; constructor.
    inversion Hall; subst. apply leb_cases. now right.
  - constructor; [|exact IHd].
    intros Hin. rewrite Forall_forall in Hall.
    specialize (Hall x Hin). now rewrite ltb_irrefl in Hall.
Qed.

Lemma strictly_ascending_filter (f : string -> bool) (l : list string) :
  strictly_ascending l -> strictly_ascending (filter f l).
Proof.
  unfold strictly_ascending.
  induction 1 as [|x l Hs IH Hall]; simpl; [constructor|].
  destruct (f x); [|exact IH].
  constructor; [exact IH|].
  rewrite Forall_forall in *. intros z Hz.
  apply filter_In in Hz. now apply Hall.
Qed.

Lemma mem_In (x : string) (l : list string) : mem x l = true <-> In x l.
Proof.
  unfold mem. rewrite existsb_exists. split.
  - intros (y & Hy & E). apply String.eqb_eq in E. now subst.
  - intros H. exists x. split; [exact H|apply String.eqb_refl].
Qed.

Lemma mem_head (x : string) (l : list string) : mem x (x :: l) = true.
Proof. unfold mem. simpl. now rewrite String.eqb_refl. Qed.

Lemma mem_below (x y : string) (l : list string) :
  strictly_ascending (y :: l) -> String.ltb x y = true -> mem x (y :: l) = false.
Proof.
  intros Hs Hlt. destruct (mem x (y :: l)) eqn:E; [|reflexivity].
  apply mem_In in E. inversion Hs as [|? ? _ Hall]; subst.
  destruct E as [-> | Hin].
  - now rewrite ltb_irrefl in Hlt.
  - rewrite Forall_forall in Hall. specialize (Hall x Hin).
    now rewrite (ltb_asym _ _ Hlt) in Hall.
Qed.

(** Dropping from the reference list a head that lies strictly below
    every element being filtered changes nothing. *)
Lemma filter_not_mem_cons (x : string) (ref l : list string) :
  Forall (fun z => String.ltb x z = true) l ->
  filter (fun z => negb (mem z (x :: ref))) l = filter (fun z => negb (mem z ref)) l.
Proof.
  intros Hall. apply filter_ext_in. intros z Hz.
  rewrite Forall_forall in Hall. specialize (Hall z Hz).
  unfold mem. simpl. destruct (String.eqb_spec z x) as [->|_]; [|reflexivity].
  now rewrite ltb_irrefl in Hall.
Qed.

Lemma filter_not_mem_nil (l : list string) :
  filter (fun z => negb (mem z [])) l = l.
Proof. induction l as [|x l IH]; simpl in *; [reflexivity | now rewrite IH]. Qed.

Lemma merge_diff_filter (l1 l2 : list string) :
  strictly_ascending l1 -> strictly_ascending l2 ->
  merge_diff l1 l2 =
    (filter (fun x => negb (mem x l2)) l1, filter (fun y => negb (mem y l1)) l2).
Proof.
  revert l2. induction l1 as [|x l1 IH1]; intros l2 H1 H2.
  - rewrite merge_diff_exit by now left. now rewrite filter_not_mem_nil.
  - induction l2 as [|y l2 IH2].
    + rewrite merge_diff_exit by now right.
      now rewrite filter_not_mem_nil.
    + pose proof H1 as H1'. pose proof H2 as H2'.
      inversion H1 as [|? ? Hs1 Hall1]; subst.
      inversion H2 as [|? ? Hs2 Hall2]; subst.
      cbn [merge_diff].
      destruct (cmps_cases x y) as [[-> E] | [[Hlt E] | [Hgt E]]]; rewrite E; cbn [Z.compare].
      * rewrite (IH1 l2 Hs1 Hs2).
        cbn [filter]. rewrite !mem_head. cbn [negb].
        now rewrite !filter_not_mem_cons.
      * rewrite (IH1 (y :: l2) Hs1 H2'). f_equal.
        -- cbn [filter]. now rewrite (mem_below x y l2 H2' Hlt).
        -- symmetry. apply filter_not_mem_cons.
           constructor; [exact Hlt|].
           eapply Forall_impl; [|exact Hall2].
           intros z Hz. exact (ltb_trans _ _ _ Hlt Hz).
      * match goal with
        | |- (let '(a, b) := ?m in _) = _ =>
            change m with (merge_diff (x :: l1) l2)
        end.
        rewrite (IH2 Hs2). f_equal.
        -- symmetry. apply filter_not_mem_cons.
           constructor; [exact Hgt|].
           eapply Forall_impl; [|exact Hall1].
           intros z Hz. exact (ltb_trans _ _ _ Hgt Hz).
        -- cbn [filter]. now rewrite (mem_below y x l1 H1' Hgt).
Qed.

Lemma diff_sorted_lists_filter (a b : list string) :
  ascending a -> NoDup a -> ascending b -> NoDup b ->
  diff_sorted_lists a b =
    (filter (fun x => negb (mem x b)) a, filter (fun y => negb (mem y a)) b).
Proof.
  intros Ha Da Hb Db. rewrite diff_sorted_lists_merge_diff.
  apply merge_diff_filter; now apply ascending_strict.
Qed.

(** C4. On ascending duplicate-free lists the diff is the pair of set
    differences, each in the order of its input and so ascending and
    duplicate-free itself; a common element is in neither output. *)
Theorem diff_sorted_lists_set_difference (a b : list string) :
  ascending a -> NoDup a -> ascending b -> NoDup b ->
  diff_sorted_lists a b =
    (filter (fun x => negb (mem x b)) a, filter (fun y => negb (mem y a)) b) /\
  (forall x, In x (fst (diff_sorted_lists a b)) <-> In x a /\ ~ In x b) /\
  (forall y, In y (snd (diff_sorted_lists a b)) <-> In y b /\ ~ In y a) /\
  ascending (fst (diff_sorted_lists a b)) /\ NoDup (fst (diff_sorted_lists a b)) /\
  ascending (snd (diff_sorted_lists a b)) /\ NoDup (snd (diff_sorted_lists a b)) /\
  (forall x, In x a -> In x b ->
     ~ In x (fst (diff_sorted_lists a b)) /\ ~ In x (snd (diff_sorted_lists a b))).
Proof.
  intros Ha Da Hb Db.
  rewrite (diff_sorted_lists_filter a b Ha Da Hb Db). cbn [fst snd].
  assert (Hin : forall l ref x,
            In x (filter (fun z => negb (mem z ref)) l) <-> In x l /\ ~ In x ref).
  { intros l ref x. rewrite filter_In, negb_true_iff, <- (mem_In x ref).
    destruct (mem x ref); split; intros [? ?]; split; auto; congruence. }
  pose proof (strictly_ascending_ascending _
    (strictly_ascending_filter (fun x => negb (mem x b)) a (ascending_strict a Ha Da))) as [? ?].
  pose proof (strictly_ascending_ascending _
    (strictly_ascending_filter (fun y => negb (mem y a)) b (ascending_strict b Hb Db))) as [? ?].
  split; [reflexivity|].
  split; [intros x; apply Hin|].
  split; [intros y; apply Hin|].
  repeat (split; [assumption|]).
  intros x Hxa Hxb. rewrite !Hin. tauto.
Qed.

Lemma diff_sorted_lists_set_difference_witness :
  diff_sorted_lists ["10.0.0.0/24"; "10.0.1.0/24"; "10.0.3.0/24"]
                    ["10.0.1.0/24"; "10.0.2.0/24"] =
    (["10.0.0.0/24"; "10.0.3.0/24"], ["10.0.2.0/24"]).
Proof.
  refine (proj1 (diff_sorted_lists_set_difference
            ["10.0.0.0/24"; "10.0.1.0/24"; "10.0.3.0/24"]
            ["10.0.1.0/24"; "10.0.2.0/24"] _ _ _ _)).
  - repeat constructor.
  - repeat constructor; simpl; intuition discriminate.
  - repeat constructor.
  - repeat constructor; simpl; intuition discriminate.
Defined.

(** ** Splitting a key *)

Lemma string_append_assoc (s1 s2 s3 : string) : (s1 ++ s2) ++ s3 = s1 ++ (s2 ++ s3).
Proof. induction s1 as [|c s1 IH]; simpl; [reflexivity | now rewrite IH]. Qed.

Lemma rev_string_acc (acc s : string) : rev_string acc s = rev_string "" s ++ acc.
Proof.
  revert acc. induction s as [|c s IH]; intros acc; simpl; [reflexivity|].
  rewrite (IH (String c acc)), (IH (String c "")).
  now rewrite string_append_assoc.
Qed.

(** The first piece of a split is the text up to the separator, and
    the other pieces are the split of the text after it. *)
Lemma split_from_pieces (sep : ascii) (acc s : string) :
  split_from sep acc s =
    (rev_string "" acc ++ upto sep s) ::
    match after sep s with
    | Some r => split r sep
    | None => []
    end.
Proof.
  revert acc. induction s as [|c s IH]; intros acc; simpl.
  - f_equal. clear. induction (rev_string "" acc); simpl; congruence.
  - destruct (Ascii.eqb c sep).
    + f_equal. clear. induction (rev_string "" acc); simpl; congruence.
    + rewrite IH. f_equal. simpl.
      rewrite (rev_string_acc (String c "") acc).
      now rewrite string_append_assoc.
Qed.

Lemma split_pieces (s : string) (sep : ascii) :
  split s sep =
    upto sep s :: match after sep s with Some r => split r sep | None => [] end.
Proof. unfold split at 1. now rewrite split_from_pieces. Qed.

Lemma split_first (s : string) (sep : ascii) :
  subscript (split s sep) 0 = Ok (upto sep s).
Proof. now rewrite split_pieces. Qed.

Lemma split_second (s : string) (sep : ascii) :
  subscript (split s sep) 1 =
    match after sep s with
    | Some r => Ok (upto sep r)
    | None => Raise IndexError
    end.
Proof.
  rewrite split_pieces. unfold subscript. simpl.
  destruct (after sep s) as [r|]; [|reflexivity].
  now rewrite split_pieces.
Qed.

Lemma has_char_after (c : ascii) (s : string) :
  has_char c s = match after c s with Some _ => true | None => false end.
Proof.
  unfold has_char. induction s as [|a s IH]; simpl; [reflexivity|].
  rewrite (Ascii.eqb_sym c a). destruct (Ascii.eqb a c); simpl; [reflexivity|exact IH].
Qed.

Lemma upto_absent (c : ascii) (s : string) : has_char c s = false -> upto c s = s.
Proof.
  unfold has_char. induction s as [|a s IH]; simpl; [reflexivity|].
  rewrite (Ascii.eqb_sym c a). destruct (Ascii.eqb a c); simpl; [discriminate|].
  intros H. now rewrite IH.
Qed.

(** ** Address predicates *)

Section PredicateFacts.
Context {lib : ipaddress}.

Lemma is_local_eq (ip : string) :
  is_local ip =
    match ip_address (upto "/" ip) with
    | Some t => Ok (is_link_local t)
    | None => Raise ValueError
    end.
Proof.
  unfold is_local. rewrite split_first. simpl. unfold parse_address.
  now destruct (ip_address (upto "/" ip)).
Qed.

Lemma is_default_route_eq (ip : string) :
  is_default_route ip =
    match ip_address (upto "/" ip) with
    | None => Raise ValueError
    | Some t =>
        if is_unspecified t
        then match after "/" ip with
             | Some r => Ok (String.eqb (upto "/" r) "0")
             | None => Raise IndexError
             end
        else Ok false
    end.
Proof.
  unfold is_default_route. rewrite split_first. simpl. unfold parse_address.
  destruct (ip_address (upto "/" ip)) as [t|]; [|reflexivity]. simpl.
  destruct (is_unspecified t); [|reflexivity].
  rewrite split_second. now destruct (after "/" ip).
Qed.

Lemma filter_out_default_routes_from_filter (lst upd : list string) :
  Forall (fun rt => exists b, is_default_route rt = Ok b) lst ->
  filter_out_default_routes_from lst upd =
    Ok (upd ++ filter (fun rt => negb (is_default rt)) lst)%list.
Proof.
  intros H. revert upd. induction H as [|rt lst [b Hb] _ IH]; intros upd; simpl.
  - now rewrite app_nil_r.
  - unfold is_default at 1. rewrite Hb. simpl. rewrite IH.
    destruct b; simpl; [reflexivity|]. now rewrite <- app_assoc.
Qed.

Lemma filter_out_default_routes_filter (lst : list string) :
  Forall (fun rt => exists b, is_default_route rt = Ok b) lst ->
  filter_out_default_routes lst = Ok (filter (fun rt => negb (is_default rt)) lst).
Proof. intros H. unfold filter_out_default_routes. now rewrite filter_out_default_routes_from_filter. Qed.
End PredicateFacts.

(** ** Effects *)

Lemma mbind_returns {A B : Type} (m : M A) (k : A -> M B) (tr : list effect) (a : A) :
  m = (tr, Returns a) -> mbind m k = ((tr ++ fst (k a))%list, snd (k a)).
Proof. intros ->. simpl. now destruct (k a). Qed.

Lemma mbind_raises {A B : Type} (m : M A) (k : A -> M B) (tr : list effect) (e : exn) :
  m = (tr, Raises e) -> mbind m k = (tr, Raises e).
Proof. now intros ->. Qed.

Lemma print_message_returns (g : LogConfig) (lvl : Z) (args : message) :
  snd (print_message g lvl args) = Returns tt.
Proof.
  unfold print_message. destruct (lvl <=? report_level g); [|reflexivity].
  simpl. now destruct (write_to_syslog g).
Qed.

Lemma print_message_then {B : Type} (g : LogConfig) (lvl : Z) (args : message)
  (k : unit -> M B) :
  mbind (print_message g lvl args) k =
    ((fst (print_message g lvl args) ++ fst (k tt))%list, snd (k tt)).
Proof.
  apply mbind_returns. pose proof (print_message_returns g lvl args) as H.
  destruct (print_message g lvl args) as [tr o]. simpl in H. now subst.
Qed.

(** ** Scenario: the only discrepancy is a default route *)

Lemma filter_none {A : Type} (f : A -> bool) (l : list A) :
  (forall x, In x l -> f x = false) -> filter f l = [].
Proof.
  induction l as [|x l IH]; intros H; simpl; [reflexivity|].
  rewrite (H x (or_introl eq_refl)). apply IH. intros z Hz. apply H. now right.
Qed.

Lemma filter_not_mem_all (l ref : list string) :
  (forall x, In x l -> In x ref) -> filter (fun x => negb (mem x ref)) l = [].
Proof.
  intros H. apply filter_none. intros x Hx.
  now rewrite (proj2 (mem_In x ref) (H x Hx)).
Qed.

Section DefaultOnly.
Context {lib : ipaddress}.
Variable g : LogConfig.

Lemma check_routes_default_only (c : Cycle)
  (tr1 tr2 tr3 : list effect) (subs : list (string * string))
  (rt_asic rt_appl intf_appl : list string) :
  get_route_entries g c = (tr1, Returns (subs, rt_asic)) ->
  get_routes g c = (tr2, Returns rt_appl) ->
  get_interfaces g c = (tr3, Returns intf_appl) ->
  ascending rt_asic -> NoDup rt_asic ->
  ascending rt_appl -> NoDup rt_appl ->
  ascending intf_appl -> NoDup intf_appl ->
  (forall x, In x rt_appl -> In x rt_asic) ->
  (forall x, In x intf_appl -> In x rt_asic) ->
  (forall x, In x rt_asic -> In x rt_appl \/ In x intf_appl \/ x = "0.0.0.0/0") ->
  (exists t, ip_address "0.0.0.0" = Some t /\ is_unspecified t = true) ->
  check_routes g c =
    ((tr1 ++ tr2 ++ tr3 ++ fst (print_message g LOG_INFO [Text "All good!"]))%list,
     Returns (0, None)).
Proof.
  intros Hre Hr Hi Sa Da Sr Dr Si Di Hmiss Hintf Hextra (t & Ht & Hu).
  unfold check_routes.
  rewrite (mbind_returns _ _ _ _ Hre). cbv beta iota zeta.
  rewrite (mbind_returns _ _ _ _ Hr).
  rewrite (mbind_returns _ _ _ _ Hi).
  rewrite (diff_sorted_lists_filter rt_appl rt_asic Sr Dr Sa Da).
  rewrite (filter_not_mem_all rt_appl rt_asic Hmiss).
  set (U := filter (fun y => negb (mem y rt_appl)) rt_asic).
  assert (SU : strictly_ascending U)
    by (apply strictly_ascending_filter, ascending_strict; assumption).
  destruct (strictly_ascending_ascending U SU) as [AU DU].
  rewrite (diff_sorted_lists_filter intf_appl U Si Di AU DU).
  set (U' := filter (fun y => negb (mem y intf_appl)) U).
  assert (Hd : is_default_route "0.0.0.0/0" = Ok true).
  { rewrite is_default_route_eq. simpl. now rewrite Ht, Hu. }
  assert (HinU' : forall x, In x U' -> x = "0.0.0.0/0").
  { intros x Hx. apply filter_In in Hx as [Hx Hni]. apply filter_In in Hx as [Hx Hnr].
    apply negb_true_iff in Hni, Hnr.
    destruct (Hextra x Hx) as [H | [H | H]]; [| |exact H].
    - apply mem_In in H. congruence.
    - apply mem_In in H. congruence. }
  assert (HU' : filter_out_default_routes U' = Ok []).
  { rewrite filter_out_default_routes_filter.
    - f_equal. apply filter_none. intros x Hx.
      rewrite (HinU' x Hx). unfold is_default. now rewrite Hd.
    - apply Forall_forall. intros x Hx. rewrite (HinU' x Hx). now exists true. }
  rewrite HU'. cbn [lift ret mbind app fst snd].
  rewrite (diff_sorted_lists_filter intf_appl rt_asic Si Di Sa Da).
  rewrite (filter_not_mem_all intf_appl rt_asic Hintf).
  cbn [nonempty orb mbind ret app fst snd].
  rewrite print_message_then. cbn [ret fst snd].
  now rewrite app_nil_r.
Qed.
End DefaultOnly.

(** C7. [is_default_route] answers true exactly on keys whose address
    part is the unspecified address and whose prefix-length part is
    the text 0; [filter_out_default_routes] keeps, in order, exactly
    the entries on which it answers false; and a cycle whose only
    discrepancy is the forwarding entry 0.0.0.0/0 succeeds. *)
Theorem default_route_is_filtered {lib : ipaddress} (g : LogConfig) (c : Cycle)
  (tr1 tr2 tr3 : list effect) (subs : list (string * string))
  (rt_asic rt_appl intf_appl : list string) :
  get_route_entries g c = (tr1, Returns (subs, rt_asic)) ->
  get_routes g c = (tr2, Returns rt_appl) ->
  get_interfaces g c = (tr3, Returns intf_appl) ->
  ascending rt_asic -> NoDup rt_asic ->
  ascending rt_appl -> NoDup rt_appl ->
  ascending intf_appl -> NoDup intf_appl ->
  (forall x, In x rt_appl -> In x rt_asic) ->
  (forall x, In x intf_appl -> In x rt_asic) ->
  (forall x, In x rt_asic -> In x rt_appl \/ In x intf_appl \/ x = "0.0.0.0/0") ->
  In "0.0.0.0/0" rt_asic -> ~ In "0.0.0.0/0" rt_appl -> ~ In "0.0.0.0/0" intf_appl ->
  (exists t, ip_address "0.0.0.0" = Some t /\ is_unspecified t = true) ->
  (forall ip,
     is_default_route ip = Ok true <->
     exists t, ip_address (upto "/" ip) = Some t /\ is_unspecified t = true /\
               option_map (upto "/") (after "/" ip) = Some "0") /\
  (forall lst,
     Forall (fun rt => exists b, is_default_route rt = Ok b) lst ->
     filter_out_default_routes lst = Ok (filter (fun rt => negb (is_default rt)) lst)) /\
  snd (check_routes g c) = Returns (0, None).
Proof.
  intros Hre Hr Hi Sa Da Sr Dr Si Di Hmiss Hintf Hextra _ _ _ Hzero.
  split; [|split].
  - intros ip. rewrite is_default_route_eq. split.
    + destruct (ip_address (upto "/" ip)) as [t|]; [|discriminate].
      destruct (is_unspecified t) eqn:Hu; [|discriminate].
      destruct (after "/" ip) as [r|]; [|discriminate].
      intros H. injection H as H. apply String.eqb_eq in H.
      exists t. simpl. now rewrite H.
    + intros (t & -> & -> & H).
      destruct (after "/" ip) as [r|]; [|discriminate].
      simpl in H. injection H as ->. reflexivity.
  - exact filter_out_default_routes_filter.
  - now rewrite (check_routes_default_only g c tr1 tr2 tr3 subs rt_asic rt_appl intf_appl).
Qed.

Lemma default_route_is_filtered_witness :
  snd (check_routes (lib := dotted_quad) initial_config scenario_D) = Returns (0, None).
Proof.
  refine (proj2 (proj2 (default_route_is_filtered (lib := dotted_quad)
    initial_config scenario_D [] [] [] []
    ["0.0.0.0/0"; "10.0.0.0/24"] ["10.0.0.0/24"] []
    _ _ _ _ _ _ _ _ _ _ _ _ _ _ _ _))).
  - reflexivity.
  - reflexivity.
  - reflexivity.
  - repeat constructor.
  - repeat constructor; simpl; intuition discriminate.
  - repeat constructor.
  - repeat constructor; simpl; intuition discriminate.
  - constructor.
  - constructor.
  - intros x; simpl; tauto.
  - intros x; simpl; tauto.
  - intros x; simpl; intuition.
  - simpl; tauto.
  - simpl; intuition discriminate.
  - simpl; tauto.
  - eexists; split; reflexivity.
Defined.

(** On a key with no slash [is_default_route] can return: the
    conjunction stops at an address that is not the unspecified one. *)
Lemma is_default_route_returns_without_slash :
  has_char "/" "10.0.0.1" = false /\
  is_default_route (lib := dotted_quad) "10.0.0.1" = Ok false.
Proof. split; reflexivity. Qed.

(** C10, amended. On a key with no slash [is_default_route] raises
    [ValueError] when the address is refused, raises [IndexError] at
    the index-1 access when the address is the unspecified one, and
    otherwise returns false without reaching that access.  On a key
    with a slash the index-1 access cannot fail, so over keys in
    address/prefix form with an accepted address
    [filter_out_default_routes] returns. *)
Theorem is_default_route_partiality {lib : ipaddress} :
  (forall ip, has_char "/" ip = false ->
     is_default_route ip =
       match ip_address ip with
       | None => Raise ValueError
       | Some t => if is_unspecified t then Raise IndexError else Ok false
       end) /\
  (forall ip, has_char "/" ip = true -> is_default_route ip <> Raise IndexError) /\
  (forall lst,
     Forall (fun rt => has_char "/" rt = true /\ ip_address (upto "/" rt) <> None) lst ->
     exists upd, filter_out_default_routes lst = Ok upd).
Proof.
  split; [|split].
  - intros ip H. rewrite is_default_route_eq, (upto_absent _ _ H).
    rewrite has_char_after in H. now destruct (after "/" ip).
  - intros ip H. rewrite is_default_route_eq. rewrite has_char_after in H.
    destruct (ip_address (upto "/" ip)) as [t|]; [|discriminate].
    destruct (is_unspecified t); [|discriminate].
    destruct (after "/" ip); discriminate.
  - intros lst H. eexists. apply filter_out_default_routes_filter.
    eapply Forall_impl; [|exact H]. intros rt [Hs Hp]. simpl in *.
    rewrite is_default_route_eq. rewrite has_char_after in Hs.
    destruct (ip_address (upto "/" rt)) as [t|]; [|congruence].
    destruct (is_unspecified t); [|now eexists].
    destruct (after "/" rt); [now eexists|discriminate].
Qed.

Lemma is_default_route_partiality_witness :
  is_default_route (lib := dotted_quad) "0.0.0.0" = Raise IndexError /\
  is_default_route (lib := dotted_quad) "0.0.0.0/0" <> Raise IndexError /\
  exists upd,
    filter_out_default_routes (lib := dotted_quad) ["0.0.0.0/0"; "10.0.0.0/24"] = Ok upd.
Proof.
  destruct (is_default_route_partiality (lib := dotted_quad)) as (H1 & H2 & H3).
  split; [|split].
  - rewrite (H1 "0.0.0.0"); reflexivity.
  - apply H2. reflexivity.
  - apply H3. repeat constructor; simpl; discriminate.
Defined.

(** ** Traces and endings of the effectful code *)

Lemma mbind_sleepless {A B : Type} (m : M A) (k : A -> M B) :
  sleepless m -> (forall a, sleepless (k a)) -> sleepless (mbind m k).
Proof.
  unfold sleepless. destruct m as [tr [a| |]]; simpl; intros Hm Hk; try exact Hm.
  specialize (Hk a). destruct (k a) as [tr2 o]. simpl in *.
  apply Forall_app. now split.
Qed.

Lemma mbind_finishes {A B : Type} (m : M A) (k : A -> M B) :
  finishes m -> (forall a, finishes (k a)) -> finishes (mbind m k).
Proof.
  unfold finishes. destruct m as [tr [a| |]]; simpl; intros Hm Hk.
  - specialize (Hk a). now destruct (k a).
  - discriminate.
  - now contradiction Hm.
Qed.

Lemma lift_sleepless {A : Type} (r : result A) : sleepless (lift r).
Proof. destruct r; constructor. Qed.

Lemma lift_finishes {A : Type} (r : result A) : finishes (lift r).
Proof. destruct r; discriminate. Qed.

Lemma ret_sleepless {A : Type} (a : A) : sleepless (ret a).
Proof. constructor. Qed.

Lemma ret_finishes {A : Type} (a : A) : finishes (ret a).
Proof. discriminate. Qed.

Lemma print_message_sleepless (g : LogConfig) (lvl : Z) (args : message) :
  sleepless (print_message g lvl args).
Proof.
  unfold print_message, sleepless.
  destruct (lvl <=? report_level g); [|constructor].
  simpl. destruct (write_to_syslog g); repeat constructor.
Qed.

Lemma print_message_finishes (g : LogConfig) (lvl : Z) (args : message) :
  finishes (print_message g lvl args).
Proof. unfold finishes. rewrite print_message_returns. discriminate. Qed.

Lemma read_local_sleepless {A : Type} (v : option A) : sleepless (read_local v).
Proof. destruct v; constructor. Qed.

Create HintDb trace.
#[local] Hint Resolve lift_sleepless ret_sleepless print_message_sleepless
  read_local_sleepless lift_finishes ret_finishes print_message_finishes : trace.

Ltac trace_step :=
  match goal with
  | |- sleepless (mbind _ _) => apply mbind_sleepless; [|intros ?]
  | |- finishes (mbind _ _) => apply mbind_finishes; [|intros ?]
  | |- context [let '(_, _) := ?p in _] => destruct p
  | |- context [if ?b then _ else _] => destruct b
  | |- _ => solve [auto with trace]
  end.

Section Traces.
Context {lib : ipaddress}.
Variable g : LogConfig.

Lemma collect_loop_sleepless (t_end : Q) (script : list WakeUp) :
  forall t_wait subs adds deletes,
    sleepless (collect_loop t_end t_wait script subs adds deletes).
Proof.
  induction script as [|w script IH]; intros t_wait subs adds deletes;
    cbn [collect_loop]; destruct (t_wait >? 0); try (constructor; fail).
  apply mbind_sleepless; [repeat constructor|intros _].
  apply mbind_sleepless; [auto with trace|intros [[subs' adds'] deletes']].
  apply IH.
Qed.

Lemma get_subscribe_updates_sleepless (c : Cycle) (subs : list (string * string)) :
  sleepless (get_subscribe_updates g c subs).
Proof.
  unfold get_subscribe_updates.
  apply mbind_sleepless; [apply collect_loop_sleepless|intros [adds deletes]].
  repeat trace_step.
Qed.

Lemma get_route_entries_sleepless (c : Cycle) : sleepless (get_route_entries g c).
Proof. unfold get_route_entries. repeat trace_step. Qed.

Lemma get_route_entries_finishes (c : Cycle) : finishes (get_route_entries g c).
Proof. unfold get_route_entries. repeat trace_step. Qed.

Lemma get_routes_sleepless (c : Cycle) : sleepless (get_routes g c).
Proof. unfold get_routes. repeat trace_step. Qed.


Lemma get_interfaces_sleepless (c : Cycle) : sleepless (get_interfaces g c).
Proof. unfold get_interfaces. repeat trace_step. Qed.


Lemma filter_out_local_interfaces_sleepless (c : Cycle) (keys : list string) :
  sleepless (filter_out_local_interfaces c keys).
Proof. unfold filter_out_local_interfaces. repeat trace_step. Qed.

#[local] Hint Resolve get_subscribe_updates_sleepless get_route_entries_sleepless
  get_routes_sleepless get_interfaces_sleepless
  filter_out_local_interfaces_sleepless : trace.

(** A cycle never sleeps. *)
Lemma check_routes_sleepless (c : Cycle) : sleepless (check_routes g c).
Proof. unfold check_routes. repeat trace_step. Qed.
End Traces.

(** ** The cycle on the sample inputs *)

(** C1. With an interface address missing from the forwarding plane
    and nothing else amiss, the collector is not run, [adds] is never
    bound, and the cycle ends in [UnboundLocalError] after its first
    two lines of report instead of returning the failure result. *)
Theorem check_routes_interface_only_raises :
  check_routes (lib := dotted_quad) initial_config interface_only =
    ([Stdout [Text "Failure results: {";
              JsonDict [("missed_INTF_TABLE_entries", ["10.0.0.1/32"])];
              Text "}"];
      Stdout [Text "Failed. Look at reported mismatches above"]],
     Raises UnboundLocalError).
Proof. reflexivity. Qed.

(** ** Malformed keys *)

Section Malformed.
Context {lib : ipaddress}.
Variable g : LogConfig.

Lemma valid_routes_raises (keys : list string) (k : string) :
  In k keys -> ip_address (upto "/" k) = None ->
  forall valid_rt, valid_routes keys valid_rt = Raise ValueError.
Proof.
  intros Hin Hk. induction keys as [|a keys IH]; [contradiction|].
  intros valid_rt. cbn [valid_routes]. rewrite is_local_eq.
  destruct (ip_address (upto "/" a)) as [t|] eqn:Ha; [|reflexivity].
  cbn [bind]. apply IH. destruct Hin as [-> | Hin]; [congruence|exact Hin].
Qed.

Lemma get_routes_raises (c : Cycle) (keys : list string) (k : string) :
  route_table_keys c = Ok keys -> In k keys -> ip_address (upto "/" k) = None ->
  get_routes g c =
    (fst (print_message g LOG_DEBUG [Text "APPL DB connected for routes"]),
     Raises ValueError).
Proof.
  intros Hc Hin Hk. unfold get_routes. rewrite Hc. cbn [lift ret mbind app].
  rewrite print_message_then.
  rewrite (valid_routes_raises keys k Hin Hk []). cbn [lift mbind fst snd].
  now rewrite app_nil_r.
Qed.

(** A cycle whose second reader raises ends by raising. *)
Lemma check_routes_raises_with_get_routes (c : Cycle) (tr : list effect) (e : exn) :
  get_routes g c = (tr, Raises e) ->
  exists tr' e', check_routes g c = (tr', Raises e').
Proof.
  intros Hr. unfold check_routes.
  pose proof (get_route_entries_finishes g c) as Hf. unfold finishes in Hf.
  destruct (get_route_entries g c) as [tr1 [[subs rt_asic]|e1|]] eqn:Hre;
    [| |now contradiction Hf].
  - rewrite (mbind_returns _ _ _ _ eq_refl). cbv beta iota zeta.
    rewrite (mbind_raises _ _ _ _ Hr). simpl. eauto.
  - rewrite (mbind_raises _ _ _ _ eq_refl). eauto.
Qed.
End Malformed.

(** A key that is not an address stops the cycle. *)
Lemma malformed_key_aborts_cycle :
  check_routes (lib := dotted_quad) initial_config malformed_key = ([], Raises ValueError).
Proof. reflexivity. Qed.

(** C2, amended. A key whose address part [ipaddress] refuses makes
    [is_local] and [is_default_route] raise [ValueError]; no reader
    catches it, so [get_routes] raises it and the cycle ends by raising
    instead of running on without that key. *)
Theorem malformed_key_raises {lib : ipaddress} (g : LogConfig) (c : Cycle)
  (keys : list string) (k : string) :
  route_table_keys c = Ok keys -> In k keys -> ip_address (upto "/" k) = None ->
  is_local k = Raise ValueError /\
  is_default_route k = Raise ValueError /\
  snd (get_routes g c) = Raises ValueError /\
  exists tr e, check_routes g c = (tr, Raises e).
Proof.
  intros Hc Hin Hk. repeat split.
  - rewrite is_local_eq. now rewrite Hk.
  - rewrite is_default_route_eq. now rewrite Hk.
  - now rewrite (get_routes_raises g c keys k Hc Hin Hk).
  - eapply check_routes_raises_with_get_routes.
    exact (get_routes_raises g c keys k Hc Hin Hk).
Qed.

Lemma malformed_key_raises_witness :
  exists tr e,
    check_routes (lib := dotted_quad) initial_config malformed_key = (tr, Raises e).
Proof.
  refine (proj2 (proj2 (proj2 (malformed_key_raises (lib := dotted_quad)
    initial_config malformed_key ["10.0.0.0/24"; "not-an-address"] "not-an-address"
    _ _ _)))).
  - reflexivity.
  - simpl; tauto.
  - reflexivity.
Defined.

(** ** Scheduler *)

Section SchedulerFacts.
Context {lib : ipaddress}.


Lemma main_loop_single_shot (g : LogConfig) (c : Cycle) (rest : list Cycle) :
  main_loop g 0 (c :: rest) = check_routes g c.
Proof.
  cbn [main_loop]. destruct (check_routes g c) as [tr [r|e|]]; cbn; try reflexivity.
  now rewrite app_nil_r.
Qed.

(** Every sleep of the loop lasts the interval the loop was started
    with. *)
Lemma main_loop_sleeps (g : LogConfig) (interval : Z) (cycles : list Cycle) :
  Forall (fun ef => forall n, ef = Sleep n -> n = interval)
    (fst (main_loop g interval cycles)).
Proof.
  induction cycles as [|c cycles IH]; cbn [main_loop]; [constructor|].
  pose proof (check_routes_sleepless g c) as Hs. unfold sleepless in Hs.
  destruct (check_routes g c) as [tr [r|e|]]; cbn [mbind fst] in *.
  - assert (Htr : Forall (fun ef => forall n, ef = Sleep n -> n = interval) tr).
    { eapply Forall_impl; [|exact Hs]. intros [] Hn n E; try discriminate.
      contradiction. }
    destruct (interval =? 0); cbn [negb].
    + cbn. now rewrite app_nil_r.
    + cbn [emit mbind UNIT_TESTING Z.eqb negb].
      destruct (main_loop g interval cycles) as [tr2 o]. cbn [fst] in *.
      apply Forall_app. split; [exact Htr|].
      constructor; [|exact IH]. intros n E. now injection E.
  - eapply Forall_impl; [|exact Hs]. intros [] Hn n E; try discriminate. contradiction.
  - eapply Forall_impl; [|exact Hs]. intros [] Hn n E; try discriminate. contradiction.
Qed.

End SchedulerFacts.

Lemma scan_interval_range (requested : Z) :
  requested <> 0 -> 10 <= scan_interval requested <= 3600.
Proof.
  intros H. unfold scan_interval, MIN_SCAN_INTERVAL, MAX_SCAN_INTERVAL, UNIT_TESTING.
  cbn [Z.eqb negb]. rewrite (proj2 (Z.eqb_neq requested 0) H). cbn [negb].
  destruct (Z.ltb_spec requested 10); [lia|].
  destruct (requested >? 3600) eqn:E; [lia|].
  rewrite Z.gtb_ltb in E. apply Z.ltb_ge in E. lia.
Qed.

Section Looping.
Context {lib : ipaddress}.
Variable g : LogConfig.
Variable interval : Z.
Hypothesis looping : interval <> 0.

Lemma main_loop_turn (c : Cycle) (cycles : list Cycle) :
  main_loop g interval (c :: cycles) =
    match check_routes g c with
    | (tr, Returns _) =>
        ((tr ++ Sleep interval :: fst (main_loop g interval cycles))%list,
         snd (main_loop g interval cycles))
    | (tr, Raises e) => (tr, Raises e)
    | (tr, Starved) => (tr, Starved)
    end.
Proof.
  cbn [main_loop]. destruct (check_routes g c) as [tr [r|e|]]; cbn [mbind];
    try reflexivity.
  rewrite (proj2 (Z.eqb_neq interval 0) looping). cbn [negb emit mbind UNIT_TESTING Z.eqb].
  now destruct (main_loop g interval cycles).
Qed.

Lemma main_loop_never_returns (cycles : list Cycle) (r : Z * option mismatches) :
  snd (main_loop g interval cycles) <> Returns r.
Proof.
  induction cycles as [|c cycles IH]; [discriminate|].
  rewrite main_loop_turn. destruct (check_routes g c) as [tr [r'|e|]];
    cbn [snd]; [exact IH|discriminate|discriminate].
Qed.

Lemma main_loop_all_cycles (cycles : list Cycle) :
  Forall (fun c => exists r, snd (check_routes g c) = Returns r) cycles ->
  main_loop g interval cycles =
    (flat_map (fun c => fst (check_routes g c) ++ [Sleep interval])%list cycles, Starved).
Proof.
  induction 1 as [|c cycles [r Hr] _ IH]; [reflexivity|].
  rewrite main_loop_turn, IH. cbn [flat_map fst snd].
  destruct (check_routes g c) as [tr o]. cbn [snd fst] in *. subst o.
  now rewrite <- app_assoc.
Qed.
(** A run whose first cycles return goes through them, sleeping after
    each, and continues with the cycles that follow. *)
Lemma main_loop_after (pre cycles : list Cycle) :
  Forall (fun c => exists r, snd (check_routes g c) = Returns r) pre ->
  main_loop g interval (pre ++ cycles) =
    ((flat_map (fun c => fst (check_routes g c) ++ [Sleep interval]) pre ++
      fst (main_loop g interval cycles))%list,
     snd (main_loop g interval cycles)).
Proof.
  induction 1 as [|c pre [r Hr] _ IH]; cbn [app flat_map].
  - now destruct (main_loop g interval cycles).
  - rewrite main_loop_turn, IH. cbn [fst snd].
    destruct (check_routes g c) as [tr o]. cbn [snd fst] in *. subst o.
    now rewrite <- !app_assoc.
Qed.
End Looping.




(** C6. The interval the loop runs with is 0 for a request of 0 and
    otherwise the request raised to 10 and lowered to 3600; every
    sleep lasts that interval; with a request other than 0 [main]
    sleeps that clamped interval after every cycle that returns and
    goes on with the next one, so that a request of 5 sleeps 10 and a
    request of 100000 sleeps 3600 after each cycle; and with a request
    of 0 [main] is one cycle: it returns what the cycle returns,
    sleeps never and runs no second cycle. *)
Theorem scan_interval_clamp {lib : ipaddress} :
  (forall requested,
     scan_interval requested =
       if requested =? 0 then 0 else Z.max 10 (Z.min requested 3600)) /\
  scan_interval 5 = 10 /\
  scan_interval 100000 = 3600 /\
  scan_interval 0 = 0 /\
  (forall args cycles,
     Forall (fun ef => forall n, ef = Sleep n -> n = scan_interval (interval args))
       (fst (main args cycles))) /\
  (forall m s c rest,
     main {| mode := m; interval := 0; log_to_syslog := s |} (c :: rest) =
       check_routes (set_level m s initial_config) c /\
     Forall not_sleep
       (fst (main {| mode := m; interval := 0; log_to_syslog := s |} (c :: rest)))) /\
  (forall args pre rest,
     let g := set_level (mode args) (log_to_syslog args) initial_config in
     let secs := Z.max 10 (Z.min (interval args) 3600) in
     interval args <> 0 ->
     Forall (fun c => exists r, snd (check_routes g c) = Returns r) pre ->
     main args (pre ++ rest) =
       ((flat_map (fun c => fst (check_routes g c) ++ [Sleep secs]) pre ++
         fst (main args rest))%list,
        snd (main args rest)) /\
     main args pre =
       (flat_map (fun c => fst (check_routes g c) ++ [Sleep secs])%list pre, Starved)) /\
  main (lib := dotted_quad) {| mode := ERR; interval := 5; log_to_syslog := false |}
       [in_sync; in_sync] = ([Sleep 10; Sleep 10], Starved) /\
  main (lib := dotted_quad) {| mode := ERR; interval := 100000; log_to_syslog := false |}
       [in_sync; in_sync] = ([Sleep 3600; Sleep 3600], Starved) /\
  main (lib := dotted_quad) {| mode := ERR; interval := 0; log_to_syslog := false |}
       [in_sync; in_sync] = ([], Returns (0, None)).
Proof.
  assert (Hclamp : forall requested,
            scan_interval requested =
              if requested =? 0 then 0 else Z.max 10 (Z.min requested 3600)).
  { intros requested. unfold scan_interval, MIN_SCAN_INTERVAL, MAX_SCAN_INTERVAL, UNIT_TESTING.
    cbn [Z.eqb negb].
    destruct (Z.eqb_spec requested 0) as [->|Hne]; [reflexivity|]. cbn [negb].
    destruct (Z.ltb_spec requested 10); [lia|].
    destruct (requested >? 3600) eqn:E; [apply Z.gtb_lt in E; lia|].
    assert (requested <= 3600) by (rewrite Z.gtb_ltb in E; apply Z.ltb_ge in E; lia). lia. }
  split; [exact Hclamp|].
  split; [reflexivity|]. split; [reflexivity|]. split; [reflexivity|].
  split; [|split; [|split; [|split; [reflexivity|split; reflexivity]]]].
  - intros args cycles. apply main_loop_sleeps.
  - intros m s c rest. unfold main.
    cbn [mode interval log_to_syslog scan_interval Z.eqb negb].
    rewrite main_loop_single_shot. split; [reflexivity|]. apply check_routes_sleepless.
  - intros args pre rest. cbv zeta. intros Hne HF. unfold main.
    assert (E : scan_interval (interval args) = Z.max 10 (Z.min (interval args) 3600)).
    { rewrite Hclamp. now rewrite (proj2 (Z.eqb_neq _ 0) Hne). }
    assert (Hn : scan_interval (interval args) <> 0) by lia.
    rewrite <- E. split.
    + exact (main_loop_after _ _ Hn pre rest HF).
    + exact (main_loop_all_cycles _ _ Hn pre HF).
Qed.

Lemma scan_interval_clamp_witness :
  main (lib := dotted_quad) {| mode := ERR; interval := 7200; log_to_syslog := false |}
       [in_sync; store_down; in_sync] = ([Sleep 3600], Raises RuntimeError).
Proof.
  destruct (scan_interval_clamp (lib := dotted_quad))
    as (_ & _ & _ & _ & _ & _ & Hloop & _).
  refine (proj1 (Hloop {| mode := ERR; interval := 7200; log_to_syslog := false |}
                   [in_sync] [store_down; in_sync] _ _)).
  - intros H. discriminate H.
  - apply Forall_cons; [|apply Forall_nil]. exists (0, None). reflexivity.
Defined.

(** ** The collector *)

(** Truncation is at most zero exactly below one ... *)
Lemma int_nonpos (x : Q) : int x <= 0 <-> (x < 1)%Q.
Proof.
  unfold int, Qlt. destruct x as [n d]. cbn [Qnum Qden].
  rewrite Z.mul_1_r, Z.mul_1_l.
  pose proof (Z.quot_rem' n (Z.pos d)) as E.
  destruct (Z.le_gt_cases 0 n) as [Hn|Hn].
  - pose proof (Z.rem_bound_pos n (Z.pos d) Hn ltac:(lia)).
    pose proof (Z.quot_pos n (Z.pos d) Hn ltac:(lia)). nia.
  - pose proof (Z.rem_bound_pos_neg n (Z.pos d) ltac:(lia) ltac:(lia)). nia.
Qed.

(** ... and a positive truncation is a lower bound. *)
Lemma int_positive (x : Q) : 0 < int x -> (inject_Z (int x) <= x)%Q.
Proof.
  unfold int, Qle, inject_Z. destruct x as [n d]. cbn [Qnum Qden].
  rewrite Z.mul_1_r. intros H.
  pose proof (Z.quot_rem' n (Z.pos d)) as E.
  destruct (Z.le_gt_cases 0 n) as [Hn|Hn].
  - pose proof (Z.rem_bound_pos n (Z.pos d) Hn ltac:(lia)). nia.
  - pose proof (Z.rem_bound_pos_neg n (Z.pos d) ltac:(lia) ltac:(lia)). nia.
Qed.

Lemma positive_false (t : Z) : t <= 0 -> (t >? 0) = false.
Proof. intros H. rewrite Z.gtb_ltb. apply Z.ltb_ge. lia. Qed.

Lemma positive_true (t : Z) : 0 < t -> (t >? 0) = true.
Proof. intros H. rewrite Z.gtb_ltb. apply Z.ltb_lt. lia. Qed.

Lemma select_calls_app (tr1 tr2 : list effect) :
  select_calls (tr1 ++ tr2) = (select_calls tr1 ++ select_calls tr2)%list.
Proof.
  induction tr1 as [|[] tr1 IH]; simpl; try assumption; [reflexivity|].
  now rewrite IH.
Qed.

Lemma print_message_no_select (g : LogConfig) (lvl : Z) (args : message) :
  select_calls (fst (print_message g lvl args)) = [].
Proof.
  unfold print_message. destruct (lvl <=? report_level g); [|reflexivity].
  simpl. now destruct (write_to_syslog g).
Qed.

Section Collector.
Context {lib : ipaddress}.
Variable g : LogConfig.
Variable t_end : Q.

(** The three ways one turn of the outer loop can go. *)
Lemma collect_loop_exit (t_wait : Z) (script : list WakeUp)
  (subs : list (string * string)) (adds deletes : list string) :
  t_wait <= 0 ->
  collect_loop t_end t_wait script subs adds deletes = ([], Returns (adds, deletes)).
Proof.
  intros H. assert (E : (t_wait >? 0) = false) by (now apply positive_false).
  destruct script; cbn [collect_loop]; now rewrite E.
Qed.

Lemma collect_loop_starved (t_wait : Z)
  (subs : list (string * string)) (adds deletes : list string) :
  0 < t_wait ->
  collect_loop t_end t_wait [] subs adds deletes = ([], Starved).
Proof.
  intros H. assert (E : (t_wait >? 0) = true) by (now apply positive_true).
  cbn [collect_loop]. now rewrite E.
Qed.

Lemma collect_loop_turn (t_wait : Z) (w : WakeUp) (script : list WakeUp)
  (subs : list (string * string)) (adds deletes : list string) :
  0 < t_wait ->
  collect_loop t_end t_wait (w :: script) subs adds deletes =
    match pop_updates (subs ++ arrived w) adds deletes with
    | Ok (subs', adds', deletes') =>
        let r := collect_loop t_end (int (t_end - clock w)) script subs' adds' deletes' in
        (Select t_wait :: fst r, snd r)
    | Raise e => ([Select t_wait], Raises e)
    end.
Proof.
  intros H. assert (E : (t_wait >? 0) = true) by (now apply positive_true).
  cbn [collect_loop]. rewrite E.
  destruct (pop_updates (subs ++ arrived w) adds deletes) as [[[subs' adds'] deletes']|e];
    cbn; [|reflexivity].
  now destruct (collect_loop t_end (int (t_end - clock w)) script subs' adds' deletes').
Qed.

(** The calls of [select]: the timeout the loop starts with, then
    the truncated time left at each reading, for as many wake-ups as
    the loop consumes; all of them positive. *)
Lemma collect_loop_calls (script : list WakeUp) :
  forall t_wait subs adds deletes,
    let calls := select_calls (fst (collect_loop t_end t_wait script subs adds deletes)) in
    calls = firstn (List.length calls)
              (t_wait :: map (fun w => int (t_end - clock w)) script) /\
    (List.length calls <= List.length script)%nat /\
    Forall (fun t => 0 < t) calls.
Proof.
  induction script as [|w script IH]; intros t_wait subs adds deletes;
    destruct (Z.le_gt_cases t_wait 0) as [Hw|Hw].
  - rewrite collect_loop_exit by exact Hw. cbn. repeat split; [lia|constructor].
  - rewrite collect_loop_starved by lia. cbn. repeat split; [lia|constructor].
  - rewrite collect_loop_exit by exact Hw. cbn. repeat split; [lia|constructor].
  - rewrite collect_loop_turn by lia.
    destruct (pop_updates (subs ++ arrived w) adds deletes) as [[[subs' adds'] deletes']|e].
    + specialize (IH (int (t_end - clock w)) subs' adds' deletes').
      cbv zeta in IH |- *. cbn [fst select_calls List.length firstn map].
      destruct IH as (IH1 & IH2 & IH3).
      repeat split.
      * f_equal. exact IH1.
      * cbn [List.length]. lia.
      * constructor; [lia|exact IH3].
    + cbn. repeat split; [lia|]. repeat constructor. lia.
Qed.

(** When the loop returns, the last reading it made was less than a
    second before the deadline. *)
Lemma collect_loop_returns (script : list WakeUp) :
  forall t_wait subs adds deletes r,
    0 < t_wait ->
    let run := collect_loop t_end t_wait script subs adds deletes in
    snd run = Returns r ->
    exists w,
      nth_error script (List.length (select_calls (fst run)) - 1) = Some w /\
      (t_end - clock w < 1)%Q.
Proof.
  induction script as [|w script IH]; intros t_wait subs adds deletes r Hw; cbv zeta.
  - rewrite collect_loop_starved by lia. discriminate.
  - rewrite collect_loop_turn by lia.
    destruct (pop_updates (subs ++ arrived w) adds deletes) as [[[subs' adds'] deletes']|e];
      [|discriminate].
    cbv zeta. cbn [fst snd select_calls List.length]. rewrite Nat.sub_1_r. cbn [pred].
    destruct (Z.le_gt_cases (int (t_end - clock w)) 0) as [Hn|Hn].
    + rewrite collect_loop_exit by exact Hn. cbn. intros _.
      exists w. split; [reflexivity|]. now apply int_nonpos.
    + intros Hr. destruct (IH _ subs' adds' deletes' r Hn Hr) as (w' & Hnth & Hlt).
      exists w'. split; [|exact Hlt].
      pose proof (collect_loop_calls script (int (t_end - clock w)) subs' adds' deletes')
        as (Hc & _ & _). cbv zeta in Hc.
      destruct (select_calls (fst (collect_loop t_end (int (t_end - clock w)) script
                  subs' adds' deletes'))) as [|t calls] eqn:E.
      * exfalso. clear -E Hn Hr.
        destruct script; [rewrite collect_loop_starved in Hr by lia; discriminate|].
        rewrite collect_loop_turn in E by lia.
        destruct (pop_updates _ _ _) as [[[? ?] ?]|?];
          cbv zeta in E; cbn [fst select_calls] in E; discriminate.
      * cbn [List.length] in *. rewrite Nat.sub_1_r in Hnth. cbn [pred] in Hnth.
        exact Hnth.
Qed.

(** The loop ends once some reading is less than a second before
    the deadline. *)
Lemma collect_loop_ends (script : list WakeUp) :
  forall t_wait subs adds deletes,
    Exists (fun w => (t_end - clock w < 1)%Q) script ->
    snd (collect_loop t_end t_wait script subs adds deletes) <> Starved.
Proof.
  induction script as [|w script IH]; intros t_wait subs adds deletes Hex;
    [inversion Hex|].
  destruct (Z.le_gt_cases t_wait 0) as [Hw|Hw].
  - rewrite collect_loop_exit by exact Hw. discriminate.
  - rewrite collect_loop_turn by lia.
    destruct (pop_updates (subs ++ arrived w) adds deletes) as [[[subs' adds'] deletes']|e];
      [|discriminate].
    cbv zeta. cbn [snd].
    inversion Hex as [? ? Hlt | ? ? Hlater]; subst.
    + rewrite collect_loop_exit by (now apply int_nonpos). discriminate.
    + now apply IH.
Qed.

(** The time blocked is bounded by the time to the deadline at the
    reading the first timeout was computed from. *)
Lemma collect_loop_blocked (script : list WakeUp) :
  forall t_wait prev subs adds deletes,
    (0 < t_wait -> (inject_Z t_wait <= t_end - prev)%Q) ->
    plausible t_end t_wait prev script ->
    let n := List.length
               (select_calls (fst (collect_loop t_end t_wait script subs adds deletes))) in
    (total_blocked (firstn n script) <= (if t_wait >? 0 then t_end - prev else 0))%Q.
Proof.
  induction script as [|w script IH]; intros t_wait prev subs adds deletes Hinv Hpl;
    destruct (Z.le_gt_cases t_wait 0) as [Hw|Hw]; cbv zeta.
  - rewrite collect_loop_exit by exact Hw. cbn.
    assert (E : (t_wait >? 0) = false) by (now apply positive_false).
    rewrite E. lra.
  - rewrite collect_loop_starved by lia. cbn.
    assert (E : (t_wait >? 0) = true) by (now apply positive_true).
    rewrite E. specialize (Hinv Hw).
    assert (0 < inject_Z t_wait)%Q by (unfold Qlt; cbn; lia). lra.
  - rewrite collect_loop_exit by exact Hw. cbn.
    assert (E : (t_wait >? 0) = false) by (now apply positive_false).
    rewrite E. lra.
  - assert (E : (t_wait >? 0) = true) by (now apply positive_true).
    cbn [plausible] in Hpl. rewrite E in Hpl |- *.
    destruct Hpl as (Hb0 & Hb1 & Hclk & Hpl). specialize (Hinv Hw).
    rewrite collect_loop_turn by lia.
    destruct (pop_updates (subs ++ arrived w) adds deletes) as [[[subs' adds'] deletes']|e].
    + cbv zeta. cbn [fst select_calls List.length firstn total_blocked fold_right].
      specialize (IH (int (t_end - clock w)) (clock w) subs' adds' deletes'
                     (int_positive (t_end - clock w)) Hpl).
      cbv zeta in IH. fold (total_blocked (firstn (List.length (select_calls (fst
        (collect_loop t_end (int (t_end - clock w)) script subs' adds' deletes')))) script)).
      destruct (int (t_end - clock w) >? 0); lra.
    + cbn. lra.
Qed.
End Collector.

Section CollectorRun.
Context {lib : ipaddress}.
Variable g : LogConfig.

(** The collector around its loop: the two lines it prints add no
    call of [select] and do not change how the run ends. *)
Lemma get_subscribe_updates_loop (c : Cycle) (subs : list (string * string)) :
  let t_end := (collect_start c + inject_Z SUBSCRIBE_WAIT_SECS)%Q in
  let loop := collect_loop t_end SUBSCRIBE_WAIT_SECS (wake_ups c) subs [] [] in
  let run := get_subscribe_updates g c subs in
  select_calls (fst run) = select_calls (fst loop) /\
  (forall r, snd run = Returns r -> exists r', snd loop = Returns r') /\
  (snd loop <> Starved -> snd run <> Starved).
Proof.
  cbv zeta. unfold get_subscribe_updates.
  destruct (collect_loop _ SUBSCRIBE_WAIT_SECS (wake_ups c) subs [] [])
    as [tr [[adds deletes]|e|]]; cbn [mbind fst snd].
  - rewrite !print_message_then. cbn [ret fst snd].
    rewrite !select_calls_app, !print_message_no_select. cbn [select_calls app].
    rewrite app_nil_r. split; [reflexivity|]. split; [eauto|discriminate].
  - split; [reflexivity|]. split; [discriminate|discriminate].
  - split; [reflexivity|]. split; [discriminate|tauto].
Qed.
End CollectorRun.

(** C5. The loop is written to run until the deadline, but [int]
    truncates the time left to whole seconds, so the loop stops at the
    first wake-up whenever the clock has advanced by then: the
    collector calls [select] once, with the window itself, and
    returns. On [early_wake] it returns a tenth of a second into the
    window, nine tenths before the deadline and with the next wake-up
    unread; on [late_event] the SET that arrives half a second into
    the window is not collected, and the cycle reports the route as
    missing. *)
Theorem collector_exits_before_deadline :
  get_subscribe_updates (lib := dotted_quad) initial_config early_wake [] =
    ([Select 1], Returns ([], [])) /\
  (0 < collect_start early_wake + inject_Z SUBSCRIBE_WAIT_SECS - (1 # 10))%Q /\
  get_subscribe_updates (lib := dotted_quad) initial_config late_event [] =
    ([Select 1], Returns ([], [])) /\
  (1 # 2 < collect_start late_event + inject_Z SUBSCRIBE_WAIT_SECS)%Q /\
  snd (check_routes (lib := dotted_quad) initial_config late_event) =
    Returns (-1, Some [("missed_ROUTE_TABLE_routes", ["10.0.0.0/24"])]) /\
  (forall (lib : ipaddress) (g : LogConfig) (c : Cycle) (subs : list (string * string))
          (w : WakeUp) (rest : list WakeUp),
     wake_ups c = w :: rest ->
     (collect_start c < clock w)%Q ->
     select_calls (fst (get_subscribe_updates g c subs)) = [SUBSCRIBE_WAIT_SECS] /\
     snd (get_subscribe_updates g c subs) <> Starved).
Proof.
  split; [reflexivity|]. split; [reflexivity|]. split; [reflexivity|].
  split; [reflexivity|]. split; [reflexivity|].
  intros lib g c subs w rest Hw Hclk.
  destruct (get_subscribe_updates_loop g c subs) as (Hcalls & _ & Hend).
  cbv zeta in Hcalls, Hend. rewrite Hcalls, Hw in *.
  assert (Hexit : int (collect_start c + inject_Z SUBSCRIBE_WAIT_SECS - clock w) <= 0).
  { apply int_nonpos. unfold SUBSCRIBE_WAIT_SECS. change (inject_Z 1) with 1%Q. lra. }
  assert (Hloop :
    select_calls (fst (collect_loop (collect_start c + inject_Z SUBSCRIBE_WAIT_SECS)
                         SUBSCRIBE_WAIT_SECS (w :: rest) subs [] [])) =
      [SUBSCRIBE_WAIT_SECS] /\
    snd (collect_loop (collect_start c + inject_Z SUBSCRIBE_WAIT_SECS)
           SUBSCRIBE_WAIT_SECS (w :: rest) subs [] []) <> Starved).
  { rewrite collect_loop_turn by (unfold SUBSCRIBE_WAIT_SECS; lia).
    destruct (pop_updates (subs ++ arrived w) [] []) as [[[subs' adds'] deletes']|e].
    - cbv zeta. rewrite collect_loop_exit by exact Hexit. split; [reflexivity|discriminate].
    - split; [reflexivity|discriminate]. }
  destruct Hloop as [H1 H2]. split; [exact H1|]. apply Hend. exact H2.
Qed.

(** The loop as it is written. The first call of [select] is given
    [SUBSCRIBE_WAIT_SECS] and each later one the time left to the
    deadline at the latest reading of the clock, truncated to whole
    seconds; the loop goes on while that number is positive, so when
    the collector returns its last reading was less than a second
    before the deadline; it ends on every script that holds such a
    reading; and on a plausible script the time spent blocked is at
    most [SUBSCRIBE_WAIT_SECS]. *)
Theorem collector_window {lib : ipaddress} (g : LogConfig) (c : Cycle)
  (subs : list (string * string)) :
  let t_end := (collect_start c + inject_Z SUBSCRIBE_WAIT_SECS)%Q in
  let run := get_subscribe_updates g c subs in
  let calls := select_calls (fst run) in
  let n := List.length calls in
  calls = firstn n (SUBSCRIBE_WAIT_SECS ::
                    map (fun w => int (t_end - clock w)) (wake_ups c)) /\
  (n <= List.length (wake_ups c))%nat /\
  Forall (fun t => 0 < t) calls /\
  (forall r, snd run = Returns r ->
     exists w, nth_error (wake_ups c) (n - 1) = Some w /\ (t_end - clock w < 1)%Q) /\
  (Exists (fun w => (t_end - clock w < 1)%Q) (wake_ups c) -> snd run <> Starved) /\
  (plausible t_end SUBSCRIBE_WAIT_SECS (collect_start c) (wake_ups c) ->
   (total_blocked (firstn n (wake_ups c)) <= inject_Z SUBSCRIBE_WAIT_SECS)%Q).
Proof.
  cbv zeta.
  destruct (get_subscribe_updates_loop g c subs) as (Hcalls & Hret & Hend).
  cbv zeta in Hcalls, Hret, Hend. rewrite Hcalls.
  set (t_end := (collect_start c + inject_Z SUBSCRIBE_WAIT_SECS)%Q) in *.
  destruct (collect_loop_calls t_end (wake_ups c) SUBSCRIBE_WAIT_SECS subs [] [])
    as (H1 & H2 & H3).
  cbv zeta in H1, H2, H3.
  split; [exact H1|]. split; [exact H2|]. split; [exact H3|].
  split; [|split].
  - intros r Hr. destruct (Hret r Hr) as [r' Hr'].
    apply (collect_loop_returns t_end (wake_ups c) SUBSCRIBE_WAIT_SECS subs [] [] r');
      [reflexivity|exact Hr'].
  - intros Hex. apply Hend. now apply collect_loop_ends.
  - intros Hpl.
    pose proof (collect_loop_blocked t_end (wake_ups c) SUBSCRIBE_WAIT_SECS
                  (collect_start c) subs [] []) as Hb.
    cbv zeta in Hb. cbn [SUBSCRIBE_WAIT_SECS Z.gtb Z.compare] in Hb.
    assert (Hinv : 0 < 1 -> (inject_Z 1 <= t_end - collect_start c)%Q).
    { intros _. subst t_end. unfold SUBSCRIBE_WAIT_SECS. lra. }
    specialize (Hb Hinv Hpl). subst t_end. unfold SUBSCRIBE_WAIT_SECS in *. lra.
Qed.

Lemma collector_window_witness :
  snd (get_subscribe_updates (lib := dotted_quad) initial_config early_wake []) <> Starved /\
  (total_blocked
     (firstn (List.length (select_calls
                (fst (get_subscribe_updates (lib := dotted_quad)
                        initial_config early_wake []))))
        (wake_ups early_wake)) <= inject_Z SUBSCRIBE_WAIT_SECS)%Q.
Proof.
  destruct (collector_window (lib := dotted_quad) initial_config early_wake [])
    as (_ & _ & _ & _ & Hend & Hblocked).
  split.
  - apply Hend. apply Exists_cons_hd. reflexivity.
  - apply Hblocked. cbn. repeat split; discriminate.
Defined.

(** * Further properties *)

(** ** More on [cmps] and the merge *)

Lemma cmps_swap (s1 s2 : string) : cmps s2 s1 = - cmps s1 s2.
Proof.
  destruct (cmps_cases s1 s2) as [[-> E] | [[Hlt E] | [Hgt E]]]; rewrite E.
  - reflexivity.
  - destruct (cmps_cases s2 s1) as [[-> E'] | [[Hlt' E'] | [Hgt' E']]]; rewrite E'.
    + now rewrite ltb_irrefl in Hlt.
    + now rewrite (ltb_asym _ _ Hlt) in Hlt'.
    + reflexivity.
  - destruct (cmps_cases s2 s1) as [[-> E'] | [[Hlt' E'] | [Hgt' E']]]; rewrite E'.
    + now rewrite ltb_irrefl in Hgt.
    + reflexivity.
    + now rewrite (ltb_asym _ _ Hgt) in Hgt'.
Qed.

Lemma cmps_zero (s1 s2 : string) : cmps s1 s2 = 0 <-> s1 = s2.
Proof.
  destruct (cmps_cases s1 s2) as [[-> E] | [[Hlt E] | [Hgt E]]]; rewrite E;
    split; try reflexivity; try discriminate; intros ->;
    now rewrite ltb_irrefl in *.
Qed.

Lemma merge_diff_cons (x y : string) (l1 l2 : list string) :
  merge_diff (x :: l1) (y :: l2) =
    match cmps x y ?= 0 with
    | Eq => merge_diff l1 l2
    | Lt => let '(a, b) := merge_diff l1 (y :: l2) in (x :: a, b)
    | Gt => let '(a, b) := merge_diff (x :: l1) l2 in (a, y :: b)
    end.
Proof. reflexivity. Qed.

(** Induction along the merge: one case for each way a turn of the
    loop can go. *)
Lemma merge_diff_cases (P : list string -> list string -> list string * list string -> Prop) :
  (forall l2, P [] l2 ([], l2)) ->
  (forall l1, P l1 [] (l1, [])) ->
  (forall x l1 l2,
     P l1 l2 (merge_diff l1 l2) -> P (x :: l1) (x :: l2) (merge_diff l1 l2)) ->
  (forall x y l1 l2 a b,
     String.ltb x y = true -> merge_diff l1 (y :: l2) = (a, b) ->
     P l1 (y :: l2) (a, b) -> P (x :: l1) (y :: l2) (x :: a, b)) ->
  (forall x y l1 l2 a b,
     String.ltb y x = true -> merge_diff (x :: l1) l2 = (a, b) ->
     P (x :: l1) l2 (a, b) -> P (x :: l1) (y :: l2) (a, y :: b)) ->
  forall l1 l2, P l1 l2 (merge_diff l1 l2).
Proof.
  intros Hnil1 Hnil2 Heq Hlt Hgt.
  induction l1 as [|x l1 IH1]; intros l2.
  - rewrite merge_diff_exit by now left. apply Hnil1.
  - induction l2 as [|y l2 IH2].
    + rewrite merge_diff_exit by now right. apply Hnil2.
    + rewrite merge_diff_cons.
      destruct (cmps_cases x y) as [[-> E] | [[H E] | [H E]]]; rewrite E; cbn [Z.compare].
      * apply Heq, IH1.
      * destruct (merge_diff l1 (y :: l2)) as [a b] eqn:Em.
        apply Hlt; [exact H|exact Em|]. rewrite <- Em. apply IH1.
      * destruct (merge_diff (x :: l1) l2) as [a b] eqn:Em.
        apply Hgt; [exact H|exact Em|exact IH2].
Qed.

Lemma merge_diff_swap (l1 l2 : list string) :
  merge_diff l2 l1 = (snd (merge_diff l1 l2), fst (merge_diff l1 l2)).
Proof.
  apply (merge_diff_cases (fun l1 l2 r => merge_diff l2 l1 = (snd r, fst r))).
  - intros l. now rewrite merge_diff_exit by now right.
  - intros l. now rewrite merge_diff_exit by now left.
  - intros x k1 k2 IH. rewrite merge_diff_cons.
    rewrite (proj2 (cmps_zero x x) eq_refl). exact IH.
  - intros x y k1 k2 a b H E IH. rewrite merge_diff_cons, cmps_swap.
    destruct (cmps_cases x y) as [[-> E'] | [[H' E'] | [H' E']]]; rewrite E'; cbn.
    + now rewrite ltb_irrefl in H.
    + cbn in IH. now rewrite IH.
    + now rewrite (ltb_asym _ _ H) in H'.
  - intros x y k1 k2 a b H E IH. rewrite merge_diff_cons, cmps_swap.
    destruct (cmps_cases x y) as [[-> E'] | [[H' E'] | [H' E']]]; rewrite E'; cbn.
    + now rewrite ltb_irrefl in H.
    + now rewrite (ltb_asym _ _ H) in H'.
    + cbn in IH. now rewrite IH.
Qed.

Lemma merge_diff_self (l : list string) : merge_diff l l = ([], []).
Proof.
  induction l as [|x l IH]; [reflexivity|].
  rewrite merge_diff_cons. now rewrite (proj2 (cmps_zero x x) eq_refl).
Qed.

Lemma merge_diff_disjoint (l1 l2 : list string) :
  (forall x, In x l1 -> ~ In x l2) -> merge_diff l1 l2 = (l1, l2).
Proof.
  apply (merge_diff_cases
           (fun l1 l2 r => (forall x, In x l1 -> ~ In x l2) -> r = (l1, l2))).
  - reflexivity.
  - reflexivity.
  - intros x k1 k2 _ H. exfalso. apply (H x); now left.
  - intros x y k1 k2 a b _ _ IH H.
    assert (E : (a, b) = (k1, y :: k2)) by (apply IH; intros z Hz; apply H; now right).
    now injection E as -> ->.
  - intros x y k1 k2 a b _ _ IH H.
    assert (E : (a, b) = (x :: k1, k2))
      by (apply IH; intros z Hz Hin; apply (H z Hz); now right).
    now injection E as -> ->.
Qed.

Lemma merge_diff_balance (l1 l2 : list string) :
  incl (fst (merge_diff l1 l2)) l1 /\
  incl (snd (merge_diff l1 l2)) l2 /\
  (List.length l1 + List.length (snd (merge_diff l1 l2)) =
   List.length l2 + List.length (fst (merge_diff l1 l2)))%nat.
Proof.
  apply (merge_diff_cases
           (fun l1 l2 r =>
              incl (fst r) l1 /\ incl (snd r) l2 /\
              (List.length l1 + List.length (snd r) =
               List.length l2 + List.length (fst r))%nat)).
  - intros l. cbn. repeat split; [apply incl_nil_l|apply incl_refl|lia].
  - intros l. cbn. repeat split; [apply incl_refl|apply incl_nil_l|lia].
  - intros x k1 k2 (H1 & H2 & H3). repeat split.
    + now apply incl_tl.
    + now apply incl_tl.
    + cbn. lia.
  - intros x y k1 k2 a b _ _ (H1 & H2 & H3). cbn [fst snd] in *. repeat split.
    + intros z [<- | Hz]; [now left|right; auto].
    + exact H2.
    + cbn in *. lia.
  - intros x y k1 k2 a b _ _ (H1 & H2 & H3). cbn [fst snd] in *. repeat split.
    + exact H1.
    + intros z [<- | Hz]; [now left|right; auto].
    + cbn in *. lia.
Qed.

Lemma leb_trans (s1 s2 s3 : string) :
  String.leb s1 s2 = true -> String.leb s2 s3 = true -> String.leb s1 s3 = true.
Proof.
  rewrite !leb_cases. intros [-> | H12] [-> | H23]; auto.
  right. exact (ltb_trans _ _ _ H12 H23).
Qed.

Lemma ascending_strongly (l : list string) :
  ascending l -> StronglySorted (fun x y => String.leb x y = true) l.
Proof.
  apply Sorted_StronglySorted. intros x y z. apply leb_trans.
Qed.

Lemma mem_below_ascending (x y : string) (l : list string) :
  ascending (y :: l) -> String.ltb x y = true -> mem x (y :: l) = false.
Proof.
  intros Hs Hlt. apply ascending_strongly in Hs.
  destruct (mem x (y :: l)) eqn:E; [|reflexivity].
  apply mem_In in E. inversion Hs as [|? ? _ Hall]; subst.
  destruct E as [-> | Hin].
  - now rewrite ltb_irrefl in Hlt.
  - rewrite Forall_forall in Hall. specialize (Hall x Hin).
    apply leb_cases in Hall as [-> | Hyx].
    + now rewrite ltb_irrefl in Hlt.
    + now rewrite (ltb_asym _ _ Hlt) in Hyx.
Qed.

(** The first output is the set difference even when the second list
    repeats elements. *)
Lemma merge_diff_first_filter (l1 l2 : list string) :
  strictly_ascending l1 -> ascending l2 ->
  fst (merge_diff l1 l2) = filter (fun x => negb (mem x l2)) l1.
Proof.
  apply (merge_diff_cases
           (fun l1 l2 r =>
              strictly_ascending l1 -> ascending l2 ->
              fst r = filter (fun x => negb (mem x l2)) l1)).
  - reflexivity.
  - intros l _ _. cbn [fst]. now rewrite filter_not_mem_nil.
  - intros x k1 k2 IH H1 H2.
    inversion H1 as [|? ? Hs1 Hall1]; subst. inversion H2 as [|? ? Hs2 _]; subst.
    rewrite (IH Hs1 Hs2). cbn [filter]. rewrite mem_head. cbn [negb].
    now rewrite filter_not_mem_cons.
  - intros x y k1 k2 a b Hlt _ IH H1 H2.
    inversion H1 as [|? ? Hs1 Hall1]; subst.
    cbn [fst] in *. cbn [filter].
    rewrite (mem_below_ascending x y k2 H2 Hlt). cbn [negb].
    now rewrite (IH Hs1 H2).
  - intros x y k1 k2 a b Hgt _ IH H1 H2.
    inversion H2 as [|? ? Hs2 _]; subst.
    cbn [fst] in *. rewrite (IH H1 Hs2).
    symmetry. apply filter_not_mem_cons.
    inversion H1 as [|? ? _ Hall1]; subst.
    constructor; [exact Hgt|].
    eapply Forall_impl; [|exact Hall1]. intros z Hz. exact (ltb_trans _ _ _ Hgt Hz).
Qed.

(** ** [sorted] *)

Lemma insert_sorted_permutation (x : string) (l : list string) :
  Permutation (insert_sorted x l) (x :: l).
Proof.
  induction l as [|y l IH]; cbn [insert_sorted]; [reflexivity|].
  destruct (String.leb x y); [reflexivity|].
  rewrite IH. apply perm_swap.
Qed.

Lemma sorted_permutation (l : list string) : Permutation (sorted l) l.
Proof.
  induction l as [|x l IH]; cbn [sorted fold_right]; [reflexivity|].
  fold (sorted l). rewrite insert_sorted_permutation. now constructor.
Qed.

Lemma sorted_In (l : list string) (x : string) : In x (sorted l) <-> In x l.
Proof.
  split; apply Permutation_in; [|symmetry]; apply sorted_permutation.
Qed.

Lemma insert_sorted_ascending (x : string) (l : list string) :
  ascending l -> ascending (insert_sorted x l).
Proof.
  unfold ascending. induction l as [|y l IH]; intros Hs; cbn [insert_sorted].
  - repeat constructor.
  - destruct (String.leb x y) eqn:E.
    + constructor; [exact Hs|]. now constructor.
    + inversion Hs as [|? ? Hs' Hhd]; subst.
      assert (Hyx : String.leb y x = true)
        by (destruct (String.leb_total x y); congruence).
      constructor; [now apply IH|].
      destruct l as [|z l]; cbn [insert_sorted]; [now constructor|].
      destruct (String.leb x z); constructor; [exact Hyx|].
      now inversion Hhd.
Qed.

Lemma sorted_ascending (l : list string) : ascending (sorted l).
Proof.
  induction l as [|x l IH]; cbn [sorted fold_right]; [constructor|].
  now apply insert_sorted_ascending.
Qed.

(** ** More on keys *)

Lemma upto_append (c : ascii) (s t : string) :
  has_char c s = false -> upto c (s ++ String c t) = s.
Proof.
  unfold has_char. induction s as [|a s IH]; cbn; [now rewrite Ascii.eqb_refl|].
  rewrite (Ascii.eqb_sym c a). destruct (Ascii.eqb a c); cbn; [discriminate|].
  intros H. now rewrite IH.
Qed.

Lemma after_append (c : ascii) (s t : string) :
  has_char c s = false -> after c (s ++ String c t) = Some t.
Proof.
  unfold has_char. induction s as [|a s IH]; cbn; [now rewrite Ascii.eqb_refl|].
  rewrite (Ascii.eqb_sym c a). destruct (Ascii.eqb a c); cbn; [discriminate|].
  exact IH.
Qed.

Lemma upto_has_no (c : ascii) (s : string) : has_char c (upto c s) = false.
Proof.
  unfold has_char. induction s as [|a s IH]; cbn; [reflexivity|].
  destruct (Ascii.eqb a c) eqn:E; cbn; [reflexivity|].
  now rewrite (Ascii.eqb_sym c a), E.
Qed.

Lemma upto_idempotent (c : ascii) (s : string) : upto c (upto c s) = upto c s.
Proof. apply upto_absent, upto_has_no. Qed.

Lemma add_prefix_cases (ip : string) :
  add_prefix ip = if has_char ":" ip then ip ++ "/128" else ip ++ "/32".
Proof.
  unfold add_prefix, IPV6_SEPARATOR, PREFIX_SEPARATOR. rewrite find_char.
  now destruct (has_char ":" ip).
Qed.

Lemma add_prefix_ifnot_cases (ip : string) :
  add_prefix_ifnot ip = if has_char "/" ip then ip else add_prefix ip.
Proof.
  unfold add_prefix_ifnot, PREFIX_SEPARATOR. rewrite find_char, negb_involutive.
  reflexivity.
Qed.

Lemma add_prefix_has_slash (ip : string) : has_char "/" (add_prefix ip) = true.
Proof.
  rewrite add_prefix_cases. destruct (has_char ":" ip);
    rewrite has_char_append; apply orb_true_r.
Qed.

Lemma add_prefix_address (ip : string) :
  has_char "/" ip = false -> upto "/" (add_prefix ip) = ip.
Proof.
  intros H. rewrite add_prefix_cases.
  destruct (has_char ":" ip); now apply upto_append.
Qed.

Lemma add_prefix_ifnot_has_slash (ip : string) :
  has_char "/" (add_prefix_ifnot ip) = true.
Proof.
  rewrite add_prefix_ifnot_cases. destruct (has_char "/" ip) eqn:E; [exact E|].
  apply add_prefix_has_slash.
Qed.

Lemma add_prefix_ifnot_address (ip : string) :
  upto "/" (add_prefix_ifnot ip) = upto "/" ip.
Proof.
  rewrite add_prefix_ifnot_cases. destruct (has_char "/" ip) eqn:E; [reflexivity|].
  rewrite (add_prefix_address ip E). symmetry. now apply upto_absent.
Qed.

Lemma canonicalize_lowercase (k : string) : lower (canonicalize k) = canonicalize k.
Proof.
  rewrite canonicalize_cases.
  destruct (has_char "/" k); [apply lower_idempotent|].
  destruct (has_char ":" k); now rewrite lower_append, lower_idempotent.
Qed.

Lemma split_once_from_pieces (sep : ascii) (acc s : string) :
  split_once_from sep acc s =
    match after sep s with
    | Some r => [rev_string "" acc ++ upto sep s; r]
    | None => [rev_string "" acc ++ upto sep s]
    end.
Proof.
  revert acc. induction s as [|c s IH]; intros acc; cbn.
  - f_equal. clear. induction (rev_string "" acc); cbn; congruence.
  - destruct (Ascii.eqb c sep).
    + f_equal. clear. induction (rev_string "" acc); cbn; congruence.
    + rewrite IH. cbn [rev_string].
      rewrite (rev_string_acc (String c "") acc), string_append_assoc.
      reflexivity.
Qed.

Lemma split_once_pieces (s : string) (sep : ascii) :
  split_once s sep =
    match after sep s with
    | Some r => [upto sep s; r]
    | None => [upto sep s]
    end.
Proof. unfold split_once. rewrite split_once_from_pieces. reflexivity. Qed.

(** ** The readers *)

Section Readers.
Context {lib : ipaddress}.
Variable g : LogConfig.

Lemma is_local_outcomes (ip : string) :
  (exists b, is_local ip = Ok b) \/ is_local ip = Raise ValueError.
Proof.
  rewrite is_local_eq. destruct (ip_address (upto "/" ip)); eauto.
Qed.

Lemma valid_routes_ok (keys : list string) :
  forall valid_rt r,
    valid_routes keys valid_rt = Ok r ->
    Forall (fun k => exists b, is_local k = Ok b) keys /\
    r = (valid_rt ++ map canonicalize (filter (fun k => negb (link_local k)) keys))%list.
Proof.
  induction keys as [|k keys IH]; intros valid_rt r H; cbn [valid_routes] in H.
  - injection H as <-. split; [constructor|]. cbn. now rewrite app_nil_r.
  - destruct (is_local k) as [b|e] eqn:E; [|discriminate]. cbn [bind] in H.
    assert (El : link_local k = b) by (unfold link_local; now rewrite E).
    destruct (IH _ _ H) as [HF ->]. split; [constructor; eauto|].
    cbn [filter]. rewrite El.
    destruct b; cbn [negb map]; [reflexivity|].
    now rewrite <- app_assoc.
Qed.

Lemma get_routes_returns (c : Cycle) (keys : list string) (tr : list effect)
  (l : list string) :
  route_table_keys c = Ok keys -> get_routes g c = (tr, Returns l) ->
  exists valid_rt, valid_routes keys [] = Ok valid_rt /\ l = sorted valid_rt.
Proof.
  intros Hc. unfold get_routes. rewrite Hc. cbn [lift ret mbind app].
  rewrite print_message_then.
  destruct (valid_routes keys []) as [valid_rt|e]; cbn [lift ret mbind fst snd];
    [|discriminate].
  rewrite print_message_then. cbn [ret fst snd].
  intros H. injection H as _ <-. eauto.
Qed.

Lemma interface_addresses_ok (keys : list string) :
  forall intf r,
    interface_addresses keys intf = Ok r ->
    forall x, In x r <->
      In x intf \/
      exists k, In k keys /\ interface_address k = Some x /\ is_local x = Ok false.
Proof.
  induction keys as [|k keys IH]; intros intf r H x; cbn [interface_addresses] in H.
  - injection H as <-. split; [now left|]. intros [?|(k & [] & _)]. assumption.
  - rewrite split_once_pieces in H. unfold interface_address in *.
    destruct (after ":" (lower k)) as [rest|] eqn:Ea; cbn [List.length Nat.eqb] in H.
    + cbn [subscript nth_error bind] in H. rewrite split_first in H. cbn [bind] in H.
      destruct (is_local (add_prefix (upto "/" rest))) as [b|e] eqn:El; [|discriminate].
      cbn [bind] in H. rewrite (IH _ _ H x). split.
      * intros [Hin | (k' & Hk' & Hx)].
        -- destruct b; cbn [negb] in Hin; [now left|].
           apply in_app_or in Hin as [Hin | [<- | []]]; [now left|].
           right. exists k. rewrite Ea. cbn. auto.
        -- right. exists k'. split; [now right|exact Hx].
      * intros [Hin | (k' & [<- | Hk'] & Hi & Hl)].
        -- left. destruct b; cbn [negb]; [exact Hin|]. apply in_or_app. now left.
        -- rewrite Ea in Hi. cbn in Hi. injection Hi as <-.
           left. rewrite El in Hl. injection Hl as ->. cbn [negb].
           apply in_or_app. right. now left.
        -- right. exists k'. auto.
    + rewrite (IH _ _ H x). split.
      * intros [Hin | (k' & Hk' & Hx)]; [now left|].
        right. exists k'. split; [now right|exact Hx].
      * intros [Hin | (k' & [<- | Hk'] & Hi & Hl)]; [now left| |].
        -- rewrite Ea in Hi. discriminate.
        -- right. exists k'. auto.
Qed.

Lemma get_interfaces_returns (c : Cycle) (keys : list string) (tr : list effect)
  (l : list string) :
  intf_table_keys c = Ok keys -> get_interfaces g c = (tr, Returns l) ->
  exists intf, interface_addresses keys [] = Ok intf /\ l = sorted intf.
Proof.
  intros Hc. unfold get_interfaces. rewrite Hc. cbn [lift ret mbind app].
  rewrite print_message_then.
  destruct (interface_addresses keys []) as [intf|e]; cbn [lift ret mbind fst snd];
    [|discriminate].
  rewrite print_message_then. cbn [ret fst snd].
  intros H. injection H as _ <-. eauto.
Qed.
End Readers.

(** ** The change feed *)

Section Feed.
Context {lib : ipaddress}.
Variable g : LogConfig.

(** What [checkout_rt_entry] can answer. *)
Lemma checkout_rt_entry_answers (k : string) (res : bool) (o : option string) :
  checkout_rt_entry k = Ok (res, o) ->
  (res = false /\ o = None) \/
  (res = true /\ startswith k ASIC_KEY_PREFIX = true /\
   exists e, o = Some e /\
             nth_error (split (lower k) DOUBLE_QUOTE) 3 = Some e /\
             is_local e = Ok false).
Proof.
  unfold checkout_rt_entry.
  destruct (startswith k ASIC_KEY_PREFIX); [|intros H; injection H as <- <-; now left].
  unfold subscript. destruct (nth_error (split (lower k) DOUBLE_QUOTE) 3) as [e|];
    [|discriminate]. cbn [bind].
  destruct (is_local e) as [[|]|] eqn:El; cbn [bind negb]; intros H;
    [injection H as <- <-; now left| |discriminate].
  injection H as <- <-. right. repeat split. exists e. auto.
Qed.

Lemma pop_route_entries_ok (buffer : list (string * string)) :
  forall rt rest r,
    pop_route_entries buffer rt = Ok (rest, r) ->
    Forall (fun p => fst p <> "") buffer ->
    rest = [] /\
    forall x, In x r <->
      In x rt \/
      exists k op, In (k, op) buffer /\ checkout_rt_entry k = Ok (true, Some x).
Proof.
  induction buffer as [|[k op] buffer IH]; intros rt rest r H Hne;
    cbn [pop_route_entries] in H.
  - injection H as <- <-. split; [reflexivity|]. intros x. split; [now left|].
    intros [?|(k & op & [] & _)]. assumption.
  - inversion Hne as [|? ? Hk Hne']; subst. cbn [fst] in Hk.
    rewrite (proj2 (String.eqb_neq k "") Hk) in H.
    destruct (checkout_rt_entry k) as [[res o]|e] eqn:Ec; [|discriminate].
    cbn [bind] in H. destruct (IH _ _ _ H Hne') as [-> Hin]. split; [reflexivity|].
    intros x. rewrite Hin. clear Hin H.
    destruct (checkout_rt_entry_answers k res o Ec)
      as [[-> ->] | (-> & _ & e & -> & _ & _)].
    + split.
      * intros [Hx | (k' & op' & Hk' & Hc)]; [now left|].
        right. exists k', op'. split; [now right|exact Hc].
      * intros [Hx | (k' & op' & [E | Hk'] & Hc)]; [now left| |].
        -- injection E as <- <-. congruence.
        -- right. exists k', op'. auto.
    + split.
      * intros [Hx | (k' & op' & Hk' & Hc)].
        -- apply in_app_or in Hx as [Hx | [<- | []]]; [now left|].
           right. exists k, op. split; [now left|exact Ec].
        -- right. exists k', op'. split; [now right|exact Hc].
      * intros [Hx | (k' & op' & [E | Hk'] & Hc)].
        -- left. apply in_or_app. now left.
        -- injection E as <- <-. rewrite Ec in Hc. injection Hc as <-.
           left. apply in_or_app. right. now left.
        -- right. exists k', op'. auto.
Qed.

Lemma get_route_entries_returns (c : Cycle) (buffer : list (string * string))
  (tr : list effect) (subs : list (string * string)) (l : list string) :
  asic_state c = Ok buffer -> get_route_entries g c = (tr, Returns (subs, l)) ->
  exists rt, pop_route_entries buffer [] = Ok (subs, rt) /\ l = sorted rt.
Proof.
  intros Hc. unfold get_route_entries. rewrite Hc. cbn [lift ret mbind app].
  rewrite print_message_then.
  destruct (pop_route_entries buffer []) as [[subs' rt]|e]; cbn [lift ret mbind fst snd];
    [|discriminate].
  rewrite print_message_then. cbn [ret fst snd].
  intros H. injection H as _ <- <-. eauto.
Qed.

(** One drain of the subscriber: what it adds to each list comes from
    an event of that operation that [checkout_rt_entry] accepts. *)
Lemma pop_updates_sound (buffer : list (string * string)) :
  forall adds deletes rest adds' deletes',
    pop_updates buffer adds deletes = Ok (rest, adds', deletes') ->
    incl rest buffer /\
    (forall x, In x adds' ->
       In x adds \/
       exists k, In (k, "SET") buffer /\ checkout_rt_entry k = Ok (true, Some x)) /\
    (forall x, In x deletes' ->
       In x deletes \/
       exists k, In (k, "DEL") buffer /\ checkout_rt_entry k = Ok (true, Some x)).
Proof.
  induction buffer as [|[k op] buffer IH]; intros adds deletes rest adds' deletes' H;
    cbn [pop_updates] in H.
  - injection H as <- <- <-. split; [apply incl_refl|]. split; intros x Hx; now left.
  - destruct (String.eqb k "").
    { injection H as <- <- <-. split; [now apply incl_tl, incl_refl|].
      split; intros x Hx; now left. }
    destruct (checkout_rt_entry k) as [[res o]|e] eqn:Ec; [|discriminate].
    cbn [bind] in H.
    assert (Hstep : forall a d,
      pop_updates buffer a d = Ok (rest, adds', deletes') ->
      (forall x, In x a ->
         In x adds \/ exists k', In (k', "SET") ((k, op) :: buffer) /\
                                 checkout_rt_entry k' = Ok (true, Some x)) ->
      (forall x, In x d ->
         In x deletes \/ exists k', In (k', "DEL") ((k, op) :: buffer) /\
                                    checkout_rt_entry k' = Ok (true, Some x)) ->
      incl rest ((k, op) :: buffer) /\
      (forall x, In x adds' ->
         In x adds \/ exists k', In (k', "SET") ((k, op) :: buffer) /\
                                 checkout_rt_entry k' = Ok (true, Some x)) /\
      (forall x, In x deletes' ->
         In x deletes \/ exists k', In (k', "DEL") ((k, op) :: buffer) /\
                                    checkout_rt_entry k' = Ok (true, Some x))).
    { intros a d Hp Ha Hd. destruct (IH _ _ _ _ _ Hp) as (Hi & Hs & Hdl).
      split; [now apply incl_tl|]. split; intros x Hx.
      - destruct (Hs x Hx) as [Hxa | (k' & Hk' & Hc)]; [now apply Ha|].
        right. exists k'. split; [now right|exact Hc].
      - destruct (Hdl x Hx) as [Hxd | (k' & Hk' & Hc)]; [now apply Hd|].
        right. exists k'. split; [now right|exact Hc]. }
    destruct res, o as [e|]; try (apply (Hstep _ _ H); intros x Hx; now left).
    destruct (String.eqb_spec op "SET") as [->|_].
    + apply (Hstep _ _ H); [|intros x Hx; now left].
      intros x Hx. apply in_app_or in Hx as [Hx | [<- | []]]; [now left|].
      right. exists k. split; [now left|exact Ec].
    + destruct (String.eqb_spec op "DEL") as [->|_].
      * apply (Hstep _ _ H); [intros x Hx; now left|].
        intros x Hx. apply in_app_or in Hx as [Hx | [<- | []]]; [now left|].
        right. exists k. split; [now left|exact Ec].
      * apply (Hstep _ _ H); intros x Hx; now left.
Qed.
End Feed.

Section FeedMore.
Context {lib : ipaddress}.

(** With no empty key in the buffer the drain reads all of it, and
    every accepted event lands in the list of its operation. *)
Lemma pop_updates_complete (buffer : list (string * string)) :
  forall adds deletes rest adds' deletes',
    pop_updates buffer adds deletes = Ok (rest, adds', deletes') ->
    Forall (fun p => fst p <> "") buffer ->
    rest = [] /\
    (forall x,
       In x adds \/
       (exists k, In (k, "SET") buffer /\ checkout_rt_entry k = Ok (true, Some x)) ->
       In x adds') /\
    (forall x,
       In x deletes \/
       (exists k, In (k, "DEL") buffer /\ checkout_rt_entry k = Ok (true, Some x)) ->
       In x deletes').
Proof.
  induction buffer as [|[k op] buffer IH]; intros adds deletes rest adds' deletes' H Hne;
    cbn [pop_updates] in H.
  - injection H as <- <- <-. split; [reflexivity|].
    split; intros x [Hx | (k & [] & _)]; exact Hx.
  - inversion Hne as [|? ? Hk Hne']; subst. cbn [fst] in Hk.
    rewrite (proj2 (String.eqb_neq k "") Hk) in H.
    destruct (checkout_rt_entry k) as [[res o]|e] eqn:Ec; [|discriminate].
    cbn [bind] in H.
    assert (Hstep : forall a d,
      pop_updates buffer a d = Ok (rest, adds', deletes') ->
      (forall x, In x adds -> In x a) ->
      (forall x, In x deletes -> In x d) ->
      (forall x, op = "SET" -> checkout_rt_entry k = Ok (true, Some x) -> In x a) ->
      (forall x, op = "DEL" -> checkout_rt_entry k = Ok (true, Some x) -> In x d) ->
      rest = [] /\
      (forall x,
         In x adds \/
         (exists k', In (k', "SET") ((k, op) :: buffer) /\
                     checkout_rt_entry k' = Ok (true, Some x)) -> In x adds') /\
      (forall x,
         In x deletes \/
         (exists k', In (k', "DEL") ((k, op) :: buffer) /\
                     checkout_rt_entry k' = Ok (true, Some x)) -> In x deletes')).
    { intros a d Hp Ha Hd Hsa Hsd. destruct (IH _ _ _ _ _ Hp Hne') as (-> & Hs & Hdl).
      split; [reflexivity|]. split; intros x [Hx | (k' & [E | Hk'] & Hc)].
      - apply Hs. left. now apply Ha.
      - injection E as <- Eo. apply Hs. left. now apply Hsa.
      - apply Hs. right. eauto.
      - apply Hdl. left. now apply Hd.
      - injection E as <- Eo. apply Hdl. left. now apply Hsd.
      - apply Hdl. right. eauto. }
    destruct (checkout_rt_entry_answers k res o Ec)
      as [[-> ->] | (-> & _ & e & -> & _ & _)].
    + apply (Hstep _ _ H); [auto|auto|intros; congruence|intros; congruence].
    + assert (Hx : forall x, checkout_rt_entry k = Ok (true, Some x) -> x = e)
        by (intros x Hc; rewrite Ec in Hc; now injection Hc).
      destruct (String.eqb_spec op "SET") as [->|Hs].
      * apply (Hstep _ _ H).
        -- intros x Hin. apply in_or_app. now left.
        -- auto.
        -- intros x _ Hc. rewrite (Hx x Hc). apply in_or_app. right. now left.
        -- intros x E. discriminate.
      * destruct (String.eqb_spec op "DEL") as [->|Hd].
        -- apply (Hstep _ _ H).
           ++ auto.
           ++ intros x Hin. apply in_or_app. now left.
           ++ intros x E. discriminate.
           ++ intros x _ Hc. rewrite (Hx x Hc). apply in_or_app. right. now left.
        -- apply (Hstep _ _ H); [auto|auto|intros; congruence|intros; congruence].
Qed.

Variable t_end : Q.

(** Every entry the collector loop returns was in the list it started
    with or comes from an accepted event of the matching operation. *)
Lemma collect_loop_sound (script : list WakeUp) :
  forall t_wait subs adds deletes tr adds' deletes',
    collect_loop t_end t_wait script subs adds deletes = (tr, Returns (adds', deletes')) ->
    (forall x, In x adds' ->
       In x adds \/
       exists k, In (k, "SET") (subs ++ concat (map arrived script)) /\
                 checkout_rt_entry k = Ok (true, Some x)) /\
    (forall x, In x deletes' ->
       In x deletes \/
       exists k, In (k, "DEL") (subs ++ concat (map arrived script)) /\
                 checkout_rt_entry k = Ok (true, Some x)).
Proof.
  induction script as [|w script IH]; intros t_wait subs adds deletes tr adds' deletes' H;
    destruct (Z.le_gt_cases t_wait 0) as [Hw|Hw].
  - rewrite collect_loop_exit in H by exact Hw. injection H as _ <- <-.
    split; intros x Hx; now left.
  - rewrite collect_loop_starved in H by lia. discriminate.
  - rewrite collect_loop_exit in H by exact Hw. injection H as _ <- <-.
    split; intros x Hx; now left.
  - rewrite collect_loop_turn in H by lia.
    destruct (pop_updates (subs ++ arrived w) adds deletes)
      as [[[subs' a'] d']|e] eqn:Ep; [|discriminate].
    cbv zeta in H.
    destruct (collect_loop t_end (int (t_end - clock w)) script subs' a' d')
      as [tr' o] eqn:El.
    cbn [fst snd] in H. injection H as _ ->.
    destruct (IH _ _ _ _ _ _ _ El) as [Hs Hd].
    destruct (pop_updates_sound _ _ _ _ _ _ Ep) as (Hi & Hps & Hpd).
    cbn [map concat]. rewrite app_assoc.
    split; intros x Hx.
    + destruct (Hs x Hx) as [Hxa | (k & Hk & Hc)].
      * destruct (Hps x Hxa) as [? | (k & Hk & Hc)]; [now left|].
        right. exists k. split; [|exact Hc]. apply in_or_app. now left.
      * right. exists k. split; [|exact Hc].
        apply in_app_or in Hk as [Hk|Hk]; apply in_or_app; [left; now apply Hi|now right].
    + destruct (Hd x Hx) as [Hxa | (k & Hk & Hc)].
      * destruct (Hpd x Hxa) as [? | (k & Hk & Hc)]; [now left|].
        right. exists k. split; [|exact Hc]. apply in_or_app. now left.
      * right. exists k. split; [|exact Hc].
        apply in_app_or in Hk as [Hk|Hk]; apply in_or_app; [left; now apply Hi|now right].
Qed.
End FeedMore.

Section CollectorOutput.
Context {lib : ipaddress}.
Variable g : LogConfig.

Lemma get_subscribe_updates_returns (c : Cycle) (subs : list (string * string))
  (tr : list effect) (adds deletes : list string) :
  get_subscribe_updates g c subs = (tr, Returns (adds, deletes)) ->
  exists tr' adds' deletes',
    collect_loop (collect_start c + inject_Z SUBSCRIBE_WAIT_SECS)%Q SUBSCRIBE_WAIT_SECS
      (wake_ups c) subs [] [] = (tr', Returns (adds', deletes')) /\
    adds = sorted adds' /\ deletes = sorted deletes'.
Proof.
  unfold get_subscribe_updates.
  destruct (collect_loop _ SUBSCRIBE_WAIT_SECS (wake_ups c) subs [] [])
    as [tr' [[adds' deletes']|e|]]; cbn [mbind];
    [|intros H; discriminate H|intros H; discriminate H].
  rewrite !print_message_then. cbn [ret fst snd].
  intros H. injection H as _ <- <-. exists tr', adds', deletes'. auto.
Qed.
End CollectorOutput.

(** ** The local-interface filter *)

Lemma dict_get_outcomes (fvs : list (string * string)) (key : string) :
  (exists v, dict_get fvs key = Ok v) \/ dict_get fvs key = Raise KeyError.
Proof.
  induction fvs as [|[k v] fvs IH]; cbn [dict_get]; [now right|].
  destruct IH as [[v' ->] | ->]; [eauto|].
  destruct (String.eqb k key); eauto.
Qed.

Lemma forallb_negb_existsb {A : Type} (f : A -> bool) (l : list A) :
  forallb (fun x => negb (f x)) l = negb (existsb f l).
Proof.
  induction l as [|x l IH]; cbn; [reflexivity|].
  rewrite IH. now destruct (f x).
Qed.

Lemma keep_non_local_ok (tbl_get : string -> list (string * string)) (keys : list string) :
  forall rt,
    Forall (fun k => tbl_get k = [] \/ exists n, dict_get (tbl_get k) "ifname" = Ok n) keys ->
    keep_non_local tbl_get keys rt =
      Ok (rt ++ filter (fun k => negb (on_local_interface tbl_get k)) keys)%list.
Proof.
  induction keys as [|k keys IH]; intros rt H; cbn [keep_non_local filter].
  - now rewrite app_nil_r.
  - inversion H as [|? ? Hk H']; subst. unfold on_local_interface at 1.
    destruct Hk as [E | [n E]].
    + rewrite E. cbn [nonempty negb dict_get]. rewrite (IH _ H').
      now rewrite <- app_assoc.
    + rewrite E. destruct (tbl_get k) as [|p fvs] eqn:Et; [discriminate|].
      cbn [nonempty negb bind]. rewrite forallb_negb_existsb.
      destruct (existsb (fun x => re_match x n) local_if_re); cbn [negb];
        rewrite (IH _ H'); [reflexivity|now rewrite <- app_assoc].
Qed.

Lemma keep_non_local_key_error (tbl_get : string -> list (string * string))
  (keys : list string) (k : string) :
  In k keys -> tbl_get k <> [] -> dict_get (tbl_get k) "ifname" = Raise KeyError ->
  forall rt, keep_non_local tbl_get keys rt = Raise KeyError.
Proof.
  intros Hin Hne Hk. induction keys as [|a keys IH]; [contradiction|].
  intros rt. cbn [keep_non_local].
  destruct (tbl_get a) as [|p fvs] eqn:Ea; cbn [nonempty negb].
  - apply IH. destruct Hin as [-> | Hin]; [congruence|exact Hin].
  - destruct (dict_get_outcomes (p :: fvs) "ifname") as [[n E] | E]; rewrite E;
      [|reflexivity].
    cbn [bind].
    assert (Hin' : In k keys).
    { destruct Hin as [-> | Hin]; [|exact Hin]. rewrite Ea in Hk. congruence. }
    destruct (forallb _ local_if_re); now apply IH.
Qed.

(** ** Logging *)

(** X17. After [set_level] on the initial configuration a message is
    printed exactly when its level is at most the level of the mode
    (errors always, debug lines only in DEBUG mode), and it goes to
    syslog as well exactly when the flag was given. *)
Theorem print_message_by_mode (m : Level) (s : bool) (lvl : Z) (args : message) :
  print_message (set_level m s initial_config) lvl args =
    if lvl <=? match m with ERR => LOG_ERR | INFO => LOG_INFO | DEBUG => LOG_DEBUG end
    then (Stdout args :: (if s then [Syslog lvl args] else []), Returns tt)
    else ([], Returns tt).
Proof.
  unfold print_message.
  destruct m, s; cbn [set_level initial_config report_level write_to_syslog];
    match goal with |- context [lvl <=? ?x] => destruct (lvl <=? x) end; reflexivity.
Qed.

(** ** The timeouts of the collector *)

Lemma int_at_most_one (x : Q) : (x <= 1)%Q -> int x <= 1.
Proof.
  unfold int, Qle. destruct x as [n d]. cbn [Qnum Qden].
  rewrite Z.mul_1_r, Z.mul_1_l. intros H.
  pose proof (Z.quot_rem' n (Z.pos d)) as E.
  destruct (Z.le_gt_cases 0 n) as [Hn|Hn].
  - pose proof (Z.rem_bound_pos n (Z.pos d) Hn ltac:(lia)). nia.
  - pose proof (Z.rem_bound_pos_neg n (Z.pos d) ltac:(lia) ltac:(lia)). nia.
Qed.

Section Timeouts.
Context {lib : ipaddress}.
Variable t_end : Q.

Lemma collect_loop_timeouts (script : list WakeUp) :
  forall t_wait prev subs adds deletes,
    t_wait <= 1 -> (t_end - prev <= 1)%Q ->
    plausible t_end t_wait prev script ->
    Forall (fun t => t = 1)
      (select_calls (fst (collect_loop t_end t_wait script subs adds deletes))).
Proof.
  induction script as [|w script IH]; intros t_wait prev subs adds deletes H1 Hp Hpl;
    destruct (Z.le_gt_cases t_wait 0) as [Hw|Hw].
  - rewrite collect_loop_exit by exact Hw. constructor.
  - rewrite collect_loop_starved by lia. constructor.
  - rewrite collect_loop_exit by exact Hw. constructor.
  - rewrite collect_loop_turn by lia.
    cbn [plausible] in Hpl. rewrite (positive_true _ Hw) in Hpl.
    destruct Hpl as (Hb0 & Hb1 & Hclk & Hpl).
    destruct (pop_updates (subs ++ arrived w) adds deletes) as [[[subs' a'] d']|e].
    + cbv zeta. cbn [fst select_calls]. constructor; [lia|].
      apply (IH _ (clock w)); [|lra|exact Hpl].
      apply int_at_most_one. lra.
    + cbn. constructor; [lia|constructor].
Qed.

Lemma collect_loop_waits (script : list WakeUp) (t_wait : Z)
  (subs : list (string * string)) (adds deletes : list string)
  (r : list string * list string) :
  0 < t_wait ->
  snd (collect_loop t_end t_wait script subs adds deletes) = Returns r ->
  select_calls (fst (collect_loop t_end t_wait script subs adds deletes)) <> [].
Proof.
  intros Hw. destruct script as [|w script].
  - rewrite collect_loop_starved by lia. discriminate.
  - rewrite collect_loop_turn by lia.
    destruct (pop_updates (subs ++ arrived w) adds deletes) as [[[subs' a'] d']|e];
      discriminate.
Qed.
End Timeouts.

(** ** Waiting *)

Lemma mbind_waitless {A B : Type} (m : M A) (k : A -> M B) :
  waitless m -> (forall a, waitless (k a)) -> waitless (mbind m k).
Proof.
  unfold waitless. destruct m as [tr [a| |]]; cbn [mbind fst]; intros Hm Hk;
    try exact Hm.
  specialize (Hk a). destruct (k a) as [tr2 o]. cbn [fst] in *.
  now rewrite select_calls_app, Hm, Hk.
Qed.

Lemma lift_waitless {A : Type} (r : result A) : waitless (lift r).
Proof. now destruct r. Qed.

Lemma ret_waitless {A : Type} (a : A) : waitless (ret a).
Proof. reflexivity. Qed.

Lemma print_message_waitless (g : LogConfig) (lvl : Z) (args : message) :
  waitless (print_message g lvl args).
Proof. apply print_message_no_select. Qed.

Lemma read_local_waitless {A : Type} (v : option A) : waitless (read_local v).
Proof. now destruct v. Qed.

Create HintDb waits.
#[local] Hint Resolve lift_waitless ret_waitless print_message_waitless
  read_local_waitless : waits.

Ltac wait_step :=
  match goal with
  | |- waitless (mbind _ _) => apply mbind_waitless; [|intros ?]
  | |- context [let '(_, _) := ?p in _] => destruct p
  | |- context [if ?b then _ else _] => destruct b
  | |- _ => solve [auto with waits]
  end.

Section Waits.
Context {lib : ipaddress}.
Variable g : LogConfig.

Lemma get_route_entries_waitless (c : Cycle) : waitless (get_route_entries g c).
Proof. unfold get_route_entries. repeat wait_step. Qed.

Lemma get_routes_waitless (c : Cycle) : waitless (get_routes g c).
Proof. unfold get_routes. repeat wait_step. Qed.

Lemma get_interfaces_waitless (c : Cycle) : waitless (get_interfaces g c).
Proof. unfold get_interfaces. repeat wait_step. Qed.

Lemma filter_out_local_interfaces_waitless (c : Cycle) (keys : list string) :
  waitless (filter_out_local_interfaces c keys).
Proof. unfold filter_out_local_interfaces. repeat wait_step. Qed.

Lemma get_routes_ascending (c : Cycle) (tr : list effect) (l : list string) :
  get_routes g c = (tr, Returns l) -> ascending l.
Proof.
  destruct (route_table_keys c) as [keys|e] eqn:Hc.
  - intros H. destruct (get_routes_returns g c keys tr l Hc H) as (v & _ & ->).
    apply sorted_ascending.
  - unfold get_routes. rewrite Hc. discriminate.
Qed.

Lemma get_interfaces_ascending (c : Cycle) (tr : list effect) (l : list string) :
  get_interfaces g c = (tr, Returns l) -> ascending l.
Proof.
  destruct (intf_table_keys c) as [keys|e] eqn:Hc.
  - intros H. destruct (get_interfaces_returns g c keys tr l Hc H) as (v & _ & ->).
    apply sorted_ascending.
  - unfold get_interfaces. rewrite Hc. discriminate.
Qed.

Lemma get_route_entries_ascending (c : Cycle) (tr : list effect)
  (subs : list (string * string)) (l : list string) :
  get_route_entries g c = (tr, Returns (subs, l)) -> ascending l.
Proof.
  destruct (asic_state c) as [buffer|e] eqn:Hc.
  - intros H. destruct (get_route_entries_returns g c buffer tr subs l Hc H) as (v & _ & ->).
    apply sorted_ascending.
  - unfold get_route_entries. rewrite Hc. discriminate.
Qed.

Lemma get_subscribe_updates_ascending (c : Cycle) (subs : list (string * string))
  (tr : list effect) (adds deletes : list string) :
  get_subscribe_updates g c subs = (tr, Returns (adds, deletes)) ->
  ascending adds /\ ascending deletes.
Proof.
  intros H. destruct (get_subscribe_updates_returns g c subs tr adds deletes H)
    as (tr' & a & d & _ & -> & ->).
  split; apply sorted_ascending.
Qed.
End Waits.

(** ** The cycle as a whole *)

Lemma filter_strictly (f : string -> bool) (l : list string) :
  ascending l -> NoDup l ->
  ascending (filter f l) /\ NoDup (filter f l) /\ strictly_ascending (filter f l).
Proof.
  intros Ha Hd.
  pose proof (strictly_ascending_filter f l (ascending_strict l Ha Hd)) as Hs.
  destruct (strictly_ascending_ascending _ Hs). auto.
Qed.

Lemma mismatch_set_built (a i u : list string) :
  (let results : mismatches := [] in
   let results :=
     if nonempty a then (results ++ [("missed_ROUTE_TABLE_routes", a)])%list
     else results in
   let results :=
     if nonempty i then (results ++ [("missed_INTF_TABLE_entries", i)])%list
     else results in
   if nonempty u
   then (results ++ [("Unaccounted_ROUTE_ENTRY_TABLE_entries", u)])%list
   else results) = mismatch_set a i u.
Proof. destruct a, i, u; reflexivity. Qed.

Lemma diff_sorted_lists_first (a b : list string) :
  strictly_ascending a -> ascending b ->
  exists rest, diff_sorted_lists a b = (filter (fun x => negb (mem x b)) a, rest).
Proof.
  intros Ha Hb. rewrite diff_sorted_lists_merge_diff.
  rewrite <- (merge_diff_first_filter a b Ha Hb).
  destruct (merge_diff a b) as [x y]. now exists y.
Qed.

Section Composition.
Context {lib : ipaddress}.
Variable g : LogConfig.
Variable c : Cycle.
Variables tr1 tr2 tr3 : list effect.
Variable subs : list (string * string).
Variables rt_asic rt_appl intf_appl : list string.
Variable tbl_get : string -> list (string * string).

Hypothesis Hre : get_route_entries g c = (tr1, Returns (subs, rt_asic)).
Hypothesis Hr : get_routes g c = (tr2, Returns rt_appl).
Hypothesis Hi : get_interfaces g c = (tr3, Returns intf_appl).
Hypothesis Da : NoDup rt_asic.
Hypothesis Dr : NoDup rt_appl.
Hypothesis Di : NoDup intf_appl.
Hypothesis Hloc :
  filter (fun x => negb (mem x rt_asic)) rt_appl = [] \/
  (route_table_get c = Ok tbl_get /\
   Forall (fun k => tbl_get k = [] \/ exists n, dict_get (tbl_get k) "ifname" = Ok n)
     (filter (fun x => negb (mem x rt_asic)) rt_appl)).
Hypothesis Hdef :
  Forall (fun rt => exists b, is_default_route rt = Ok b)
    (filter (fun y => negb (mem y intf_appl))
       (filter (fun y => negb (mem y rt_appl)) rt_asic)).

Let missing : list string :=
  filter (fun k => negb (on_local_interface tbl_get k))
    (filter (fun x => negb (mem x rt_asic)) rt_appl).
Let unaccounted : list string :=
  filter (fun rt => negb (is_default rt))
    (filter (fun y => negb (mem y intf_appl))
       (filter (fun y => negb (mem y rt_appl)) rt_asic)).
Let intf_missing : list string := filter (fun x => negb (mem x rt_asic)) intf_appl.

Lemma check_routes_outcome :
  (missing = [] -> unaccounted = [] ->
   snd (check_routes g c) =
     (if nonempty intf_missing then Raises UnboundLocalError else Returns (0, None)) /\
   waitless (check_routes g c)) /\
  (forall tr5 adds deletes,
     missing <> [] \/ unaccounted <> [] ->
     get_subscribe_updates g c subs = (tr5, Returns (adds, deletes)) ->
     let m := filter (fun x => negb (mem x adds)) missing in
     let u := filter (fun x => negb (mem x deletes)) unaccounted in
     snd (check_routes g c) =
       Returns (if nonempty (mismatch_set m intf_missing u)
                then (-1, Some (mismatch_set m intf_missing u))
                else (0, None))).
Proof.
  pose proof (get_route_entries_ascending g c tr1 subs rt_asic Hre) as Sa.
  pose proof (get_routes_ascending g c tr2 rt_appl Hr) as Sr.
  pose proof (get_interfaces_ascending g c tr3 intf_appl Hi) as Si.
  pose proof (get_route_entries_waitless g c) as W1. rewrite Hre in W1.
  pose proof (get_routes_waitless g c) as W2. rewrite Hr in W2.
  pose proof (get_interfaces_waitless g c) as W3. rewrite Hi in W3.
  unfold waitless in W1, W2, W3 |- *. cbn [fst] in W1, W2, W3.
  unfold check_routes.
  rewrite (mbind_returns _ _ _ _ Hre). cbv beta iota zeta.
  rewrite (mbind_returns _ _ _ _ Hr).
  rewrite (mbind_returns _ _ _ _ Hi).
  rewrite (diff_sorted_lists_filter rt_appl rt_asic Sr Dr Sa Da).
  destruct (filter_strictly (fun y => negb (mem y rt_appl)) rt_asic Sa Da) as (AU & DU & _).
  rewrite (diff_sorted_lists_filter intf_appl _ Si Di AU DU).
  rewrite (filter_out_default_routes_filter _ Hdef).
  fold unaccounted. cbn [lift ret mbind app fst snd].
  rewrite (diff_sorted_lists_filter intf_appl rt_asic Si Di Sa Da).
  fold intf_missing.
  assert (Hstage :
    (if nonempty (filter (fun x => negb (mem x rt_asic)) rt_appl)
     then filter_out_local_interfaces c (filter (fun x => negb (mem x rt_asic)) rt_appl)
     else ret (filter (fun x => negb (mem x rt_asic)) rt_appl)) = ([], Returns missing)).
  { subst missing. destruct Hloc as [E | [Htbl HF]].
    - rewrite E. reflexivity.
    - destruct (filter (fun x => negb (mem x rt_asic)) rt_appl) as [|k0 ks] eqn:E;
        [reflexivity|].
      cbn [nonempty]. unfold filter_out_local_interfaces. rewrite Htbl.
      cbn [lift ret mbind app]. now rewrite (keep_non_local_ok tbl_get _ [] HF). }
  rewrite Hstage. cbn [mbind app].
  assert (SM : strictly_ascending missing).
  { subst missing.
    destruct (filter_strictly (fun x => negb (mem x rt_asic)) rt_appl Sr Dr) as (A1 & D1 & _).
    now destruct (filter_strictly (fun k => negb (on_local_interface tbl_get k)) _ A1 D1)
      as (_ & _ & ?). }
  assert (SU : strictly_ascending unaccounted).
  { subst unaccounted.
    destruct (filter_strictly (fun y => negb (mem y intf_appl)) _ AU DU) as (A1 & D1 & _).
    now destruct (filter_strictly (fun rt => negb (is_default rt)) _ A1 D1) as (_ & _ & ?). }
  clearbody missing unaccounted intf_missing.
  split.
  - intros -> ->. cbn [nonempty orb ret mbind app].
    destruct intf_missing as [|i0 is0]; cbn [nonempty app mismatch_set].
    + rewrite print_message_then. cbn [ret fst snd].
      split; [reflexivity|].
      now rewrite !select_calls_app, W1, W2, W3, print_message_no_select.
    + rewrite !print_message_then. cbn [read_local mbind fst snd].
      split; [reflexivity|].
      now rewrite !select_calls_app, W1, W2, W3, !print_message_no_select.
  - intros tr5 adds deletes Hne Hg.
    destruct (get_subscribe_updates_ascending g c subs tr5 adds deletes Hg) as [Aa Ad].
    assert (E : nonempty missing || nonempty unaccounted = true).
    { destruct missing, unaccounted; try reflexivity. destruct Hne; congruence. }
    rewrite E. rewrite (mbind_returns _ _ _ _ Hg). cbv beta iota.
    destruct (diff_sorted_lists_first missing adds SM Aa) as [r1 ->].
    destruct (diff_sorted_lists_first unaccounted deletes SU Ad) as [r2 ->].
    cbv zeta. cbn [ret fst snd app mbind].
    generalize (filter (fun x => negb (mem x adds)) missing).
    generalize (filter (fun x => negb (mem x deletes)) unaccounted).
    intros u m.
    destruct m as [|m0 ms], intf_missing as [|i0 is0], u as [|u0 us];
      cbn [nonempty app mismatch_set read_local];
      rewrite ?print_message_then; cbn [ret mbind fst snd];
      rewrite ?print_message_then; reflexivity.
Qed.
End Composition.

(** ** What a cycle can return *)

Lemma mbind_returns_inv {A B : Type} (m : M A) (k : A -> M B)
  (tr : list effect) (b : B) :
  mbind m k = (tr, Returns b) ->
  exists tr1 a tr2, m = (tr1, Returns a) /\ k a = (tr2, Returns b) /\ tr = (tr1 ++ tr2)%list.
Proof.
  destruct m as [tr1 [a| |]]; cbn [mbind]; [|intros H; discriminate H|intros H; discriminate H].
  destruct (k a) as [tr2 o] eqn:E. intros H. injection H as <- ->.
  exists tr1, a, tr2. auto.
Qed.

Lemma mbind_snd_inv {A B : Type} (m : M A) (k : A -> M B) (b : B) :
  snd (mbind m k) = Returns b ->
  exists tr1 a, m = (tr1, Returns a) /\ snd (k a) = Returns b.
Proof.
  destruct (mbind m k) as [tr o] eqn:E. cbn [snd]. intros ->.
  destruct (mbind_returns_inv m k tr b E) as (tr1 & a & tr2 & Hm & Hk & _).
  exists tr1, a. split; [exact Hm|]. now rewrite Hk.
Qed.

Lemma lift_returns_inv {A : Type} (r : result A) (tr : list effect) (a : A) :
  lift r = (tr, Returns a) -> r = Ok a.
Proof. destruct r; cbn; intros H; [now injection H as _ ->|discriminate H]. Qed.

Lemma diff_sorted_lists_incl (t1 t2 : list string) :
  incl (fst (diff_sorted_lists t1 t2)) t1 /\ incl (snd (diff_sorted_lists t1 t2)) t2.
Proof.
  rewrite diff_sorted_lists_merge_diff.
  destruct (merge_diff_balance t1 t2) as (H1 & H2 & _). auto.
Qed.

Lemma keep_non_local_incl (tbl_get : string -> list (string * string)) (keys : list string) :
  forall rt r, keep_non_local tbl_get keys rt = Ok r -> incl r (rt ++ keys).
Proof.
  induction keys as [|k keys IH]; intros rt r H; cbn [keep_non_local] in H.
  - injection H as <-. rewrite app_nil_r. apply incl_refl.
  - assert (Hk : forall rt', incl rt' (rt ++ [k]) ->
              keep_non_local tbl_get keys rt' = Ok r -> incl r (rt ++ k :: keys)).
    { intros rt' Hi Hr x Hx. apply (IH _ _ Hr) in Hx.
      apply in_app_or in Hx as [Hx|Hx].
      - apply Hi, in_app_or in Hx as [Hx|[<-|[]]]; apply in_or_app;
          [now left|right; now left].
      - apply in_or_app. right. now right. }
    destruct (negb (nonempty (tbl_get k))).
    + apply (Hk _ (incl_refl _) H).
    + destruct (dict_get (tbl_get k) "ifname") as [n|e]; [|discriminate]. cbn [bind] in H.
      destruct (forallb _ local_if_re).
      * apply (Hk _ (incl_refl _) H).
      * apply (Hk rt); [|exact H]. intros x Hx. apply in_or_app. now left.
Qed.

Lemma filter_out_local_interfaces_incl (c : Cycle) (keys : list string)
  (tr : list effect) (r : list string) :
  filter_out_local_interfaces c keys = (tr, Returns r) -> incl r keys.
Proof.
  unfold filter_out_local_interfaces. intros H.
  apply mbind_returns_inv in H as (tr1 & tbl & tr2 & _ & H & _).
  apply lift_returns_inv in H. exact (keep_non_local_incl tbl keys [] r H).
Qed.

Section NotDefault.
Context {lib : ipaddress}.

Lemma filter_out_default_routes_from_kept (lst : list string) :
  forall upd r,
    filter_out_default_routes_from lst upd = Ok r ->
    incl r (upd ++ lst) /\
    (Forall (fun x => is_default_route x = Ok false) upd ->
     Forall (fun x => is_default_route x = Ok false) r).
Proof.
  induction lst as [|rt lst IH]; intros upd r H; cbn [filter_out_default_routes_from] in H.
  - injection H as <-. rewrite app_nil_r. split; [apply incl_refl|auto].
  - destruct (is_default_route rt) as [d|e] eqn:E; [|discriminate]. cbn [bind] in H.
    destruct (IH _ _ H) as [Hi HF]. destruct d; cbn [negb] in *.
    + split; [|exact HF]. intros x Hx. apply Hi, in_app_or in Hx as [Hx|Hx];
        apply in_or_app; [now left|right; now right].
    + split.
      * intros x Hx. apply Hi, in_app_or in Hx as [Hx|Hx].
        -- apply in_app_or in Hx as [Hx|[<-|[]]]; apply in_or_app;
             [now left|right; now left].
        -- apply in_or_app. right. now right.
      * intros Hu. apply HF. apply Forall_app. split; [exact Hu|]. now constructor.
Qed.

Lemma filter_out_default_routes_kept (lst r : list string) :
  filter_out_default_routes lst = Ok r ->
  incl r lst /\ Forall (fun x => is_default_route x = Ok false) r.
Proof.
  intros H. destruct (filter_out_default_routes_from_kept lst [] r H) as [Hi HF].
  split; [exact Hi|]. apply HF. constructor.
Qed.
End NotDefault.

Section Shape.
Context {lib : ipaddress}.
Variable g : LogConfig.

(** X18. A cycle that returns has read its three tables, and what it
    returns is fixed by them. With [missing] the declared routes the
    merge does not find in the forwarding plane, less those on local
    interfaces, and [unaccounted] the routes of the forwarding plane
    that the merges find neither declared nor among the interface
    addresses, less the default routes: when both are empty the cycle
    returns 0 with no results and no interface address is missing;
    otherwise the collector has returned, and the cycle returns -1
    with the dict of the categories that are not empty among
    [missing] less the collected SETs, the interface addresses the
    merge does not find in the forwarding plane, and [unaccounted]
    less the collected DELs, or 0 with no results when all three are
    empty. *)
Theorem check_routes_result (c : Cycle) (b : Z * option mismatches) :
  snd (check_routes g c) = Returns b ->
  exists subs rt_asic rt_appl intf_appl missing unaccounted,
    snd (get_route_entries g c) = Returns (subs, rt_asic) /\
    snd (get_routes g c) = Returns rt_appl /\
    snd (get_interfaces g c) = Returns intf_appl /\
    let rt_appl_miss := fst (diff_sorted_lists rt_appl rt_asic) in
    let rt_asic_miss :=
      snd (diff_sorted_lists intf_appl (snd (diff_sorted_lists rt_appl rt_asic))) in
    let i := fst (diff_sorted_lists intf_appl rt_asic) in
    snd (if nonempty rt_appl_miss
         then filter_out_local_interfaces c rt_appl_miss
         else ret rt_appl_miss) = Returns missing /\
    filter_out_default_routes rt_asic_miss = Ok unaccounted /\
    incl missing rt_appl /\
    incl unaccounted rt_asic /\
    Forall (fun rt => is_default_route rt = Ok false) unaccounted /\
    ((missing = [] /\ unaccounted = [] /\ i = [] /\ b = (0, None)) \/
     ((missing <> [] \/ unaccounted <> []) /\
      exists adds deletes,
        snd (get_subscribe_updates g c subs) = Returns (adds, deletes) /\
        let a := fst (diff_sorted_lists missing adds) in
        let u := fst (diff_sorted_lists unaccounted deletes) in
        incl a missing /\ incl u unaccounted /\
        b = if nonempty (mismatch_set a i u)
            then (-1, Some (mismatch_set a i u))
            else (0, None))).
Proof.
  intros H. unfold check_routes in H.
  apply mbind_snd_inv in H as (tr1 & [subs rt_asic] & Hre & H).
  apply mbind_snd_inv in H as (tr2 & rt_appl & Hr & H).
  apply mbind_snd_inv in H as (tr3 & intf_appl & Hi & H).
  pose proof (diff_sorted_lists_incl rt_appl rt_asic) as [Ia Iu].
  destruct (diff_sorted_lists rt_appl rt_asic) as [am0 um0] eqn:E1. cbn [fst snd] in Ia, Iu.
  pose proof (diff_sorted_lists_incl intf_appl um0) as [_ Iu1].
  destruct (diff_sorted_lists intf_appl um0) as [x um1] eqn:E2. cbn [fst snd] in Iu1.
  apply mbind_snd_inv in H as (tr4 & um2 & Hd & H).
  apply lift_returns_inv in Hd.
  destruct (filter_out_default_routes_kept _ _ Hd) as [Iu2 Fu2].
  destruct (diff_sorted_lists intf_appl rt_asic) as [i y] eqn:E3.
  apply mbind_snd_inv in H as (tr5 & am1 & Hl & H).
  assert (Ia1 : incl am1 am0).
  { destruct (nonempty am0).
    - exact (filter_out_local_interfaces_incl _ _ _ _ Hl).
    - injection Hl as _ <-. apply incl_refl. }
  apply mbind_snd_inv in H as (tr6 & [[[m u] adds] deletes] & Hc & H).
  exists subs, rt_asic, rt_appl, intf_appl, am1, um2.
  cbv zeta. rewrite Hre, Hr, Hi, E1. cbn [fst snd]. rewrite E2, E3. cbn [fst snd].
  split; [reflexivity|]. split; [reflexivity|]. split; [reflexivity|].
  split; [exact (f_equal snd Hl)|]. split; [exact Hd|].
  split; [eapply incl_tran; eauto|].
  split; [eapply incl_tran; [exact Iu2|]; eapply incl_tran; eauto|].
  split; [exact Fu2|].
  destruct (nonempty am1 || nonempty um2) eqn:En.
  - right. split.
    { destruct am1; [|left; discriminate]. destruct um2; [discriminate En|right; discriminate]. }
    apply mbind_returns_inv in Hc as (t1 & [ad de] & t2 & Hg & Hk & _).
    exists ad, de. rewrite Hg. split; [reflexivity|].
    pose proof (diff_sorted_lists_incl am1 ad) as [I1 _].
    pose proof (diff_sorted_lists_incl um2 de) as [I2 _].
    destruct (diff_sorted_lists am1 ad) as [m' x1], (diff_sorted_lists um2 de) as [u' x2].
    cbn [fst] in I1, I2 |- *. injection Hk as _ <- <- <- <-.
    split; [exact I1|]. split; [exact I2|].
    clear - H. revert H. cbv zeta.
    destruct m' as [|m0 ms], i as [|i0 is0], u' as [|u0 us];
      cbn [nonempty app mismatch_set read_local];
      rewrite ?print_message_then; cbn [ret mbind fst snd];
      rewrite ?print_message_then; cbn [ret mbind fst snd];
      rewrite ?print_message_then; cbn [ret mbind fst snd];
      rewrite ?print_message_then; cbn [ret mbind fst snd];
      intros H; injection H as <-; reflexivity.
  - left. injection Hc as _ <- <- <- <-.
    destruct am1; [|discriminate En]. destruct um2; [|discriminate En].
    split; [reflexivity|]. split; [reflexivity|].
    clear - H. revert H. cbv zeta.
    destruct i as [|i0 is0]; cbn [nonempty app read_local];
      rewrite ?print_message_then; cbn [ret mbind fst snd];
      rewrite ?print_message_then; cbn [ret mbind read_local fst snd];
      intros H; [injection H as <-; now split|discriminate H].
Qed.
End Shape.

(** X1. [cmps] is a three-way comparison: 0 exactly on equal strings,
    -1 exactly when the first is smaller, 1 exactly when the second
    is, and swapping the arguments negates the answer. *)
Theorem cmps_three_way (s1 s2 : string) :
  (cmps s1 s2 = 0 <-> s1 = s2) /\
  (cmps s1 s2 = -1 <-> String.ltb s1 s2 = true) /\
  (cmps s1 s2 = 1 <-> String.ltb s2 s1 = true) /\
  cmps s2 s1 = - cmps s1 s2.
Proof.
  split; [apply cmps_zero|]. split; [|split; [|apply cmps_swap]].
  - destruct (cmps_cases s1 s2) as [[-> E] | [[H E] | [H E]]]; rewrite E;
      split; try discriminate; try reflexivity; intros H'; try exact H.
    + now rewrite ltb_irrefl in H'.
    + now rewrite (ltb_asym _ _ H) in H'.
  - destruct (cmps_cases s1 s2) as [[-> E] | [[H E] | [H E]]]; rewrite E;
      split; try discriminate; try reflexivity; intros H'; try exact H.
    + now rewrite ltb_irrefl in H'.
    + now rewrite (ltb_asym _ _ H) in H'.
Qed.

(** X2. Swapping the two lists swaps the two outputs, whatever the
    lists hold. *)
Theorem diff_sorted_lists_swap (t1 t2 : list string) :
  diff_sorted_lists t2 t1 =
    (snd (diff_sorted_lists t1 t2), fst (diff_sorted_lists t1 t2)).
Proof. rewrite !diff_sorted_lists_merge_diff. apply merge_diff_swap. Qed.

(** X3. A list differs from itself by nothing, sorted or not and with
    or without repeats. *)
Theorem diff_sorted_lists_self (t : list string) :
  diff_sorted_lists t t = ([], []).
Proof. rewrite diff_sorted_lists_merge_diff. apply merge_diff_self. Qed.

(** X4. Two lists with no element in common come back unchanged; in
    particular an empty list against any list. *)
Theorem diff_sorted_lists_disjoint (t1 t2 : list string) :
  (forall x, In x t1 -> ~ In x t2) ->
  diff_sorted_lists t1 t2 = (t1, t2).
Proof. intros H. rewrite diff_sorted_lists_merge_diff. now apply merge_diff_disjoint. Qed.

Lemma diff_sorted_lists_disjoint_witness :
  diff_sorted_lists [] ["10.0.0.0/24"; "10.0.1.0/24"] =
    ([], ["10.0.0.0/24"; "10.0.1.0/24"]).
Proof.
  apply (diff_sorted_lists_disjoint [] ["10.0.0.0/24"; "10.0.1.0/24"]).
  intros x H. destruct H.
Defined.

(** X5. Each output holds only elements of its own input, and the two
    inputs lose the same number of elements: the loop drops elements
    in pairs, one from each list. *)
Theorem diff_sorted_lists_balance (t1 t2 : list string) :
  incl (fst (diff_sorted_lists t1 t2)) t1 /\
  incl (snd (diff_sorted_lists t1 t2)) t2 /\
  (List.length t1 + List.length (snd (diff_sorted_lists t1 t2)) =
   List.length t2 + List.length (fst (diff_sorted_lists t1 t2)))%nat.
Proof. rewrite diff_sorted_lists_merge_diff. apply merge_diff_balance. Qed.

(** X6. When the first list is ascending without repeats and the
    second is ascending, repeats allowed, the first output is still
    the elements of the first list that the second does not hold. *)
Theorem diff_sorted_lists_first_output (a b : list string) :
  ascending a -> NoDup a -> ascending b ->
  fst (diff_sorted_lists a b) = filter (fun x => negb (mem x b)) a.
Proof.
  intros Ha Da Hb. rewrite diff_sorted_lists_merge_diff.
  apply merge_diff_first_filter; [now apply ascending_strict|exact Hb].
Qed.

Lemma diff_sorted_lists_first_output_witness :
  fst (diff_sorted_lists ["10.0.0.0/24"; "10.0.1.0/24"]
                         ["10.0.0.0/24"; "10.0.0.0/24"; "10.0.2.0/24"]) =
    ["10.0.1.0/24"].
Proof.
  apply (diff_sorted_lists_first_output
           ["10.0.0.0/24"; "10.0.1.0/24"]
           ["10.0.0.0/24"; "10.0.0.0/24"; "10.0.2.0/24"]).
  - repeat constructor.
  - repeat constructor; simpl; intuition discriminate.
  - repeat constructor.
Defined.

(** X7. [add_prefix_ifnot] always answers a key with a slash, keeps
    the address part of its argument, and applied twice does what it
    does applied once. *)
Theorem add_prefix_ifnot_keeps_address (ip : string) :
  has_char "/" (add_prefix_ifnot ip) = true /\
  upto "/" (add_prefix_ifnot ip) = upto "/" ip /\
  add_prefix_ifnot (add_prefix_ifnot ip) = add_prefix_ifnot ip.
Proof.
  split; [apply add_prefix_ifnot_has_slash|]. split; [apply add_prefix_ifnot_address|].
  rewrite (add_prefix_ifnot_cases (add_prefix_ifnot ip)).
  now rewrite add_prefix_ifnot_has_slash.
Qed.

(** X8. [is_local] looks at the address part only: it answers the same
    on a key, on its address part and on the key with a prefix length
    added; and it either answers or raises [ValueError]. *)
Theorem is_local_address_only {lib : ipaddress} (ip : string) :
  is_local ip = is_local (upto "/" ip) /\
  is_local (add_prefix_ifnot ip) = is_local ip /\
  ((exists b, is_local ip = Ok b) \/ is_local ip = Raise ValueError).
Proof.
  split; [|split].
  - now rewrite !is_local_eq, upto_idempotent.
  - now rewrite !is_local_eq, add_prefix_ifnot_address.
  - apply is_local_outcomes.
Qed.

(** X9. [checkout_rt_entry] skips a key outside the route-entry
    namespace without reading it; when it answers, the flag is true
    exactly when an entry comes with it, and that entry is the fourth
    quote-separated piece of the lowercased key and is not link-local;
    a route-entry key with fewer than four pieces raises
    [IndexError]. *)
Theorem checkout_rt_entry_edges {lib : ipaddress} (k : string) :
  (startswith k ASIC_KEY_PREFIX = false -> checkout_rt_entry k = Ok (false, None)) /\
  (forall res o,
     checkout_rt_entry k = Ok (res, o) ->
     (res = false /\ o = None) \/
     (res = true /\ startswith k ASIC_KEY_PREFIX = true /\
      exists e, o = Some e /\
                nth_error (split (lower k) DOUBLE_QUOTE) 3 = Some e /\
                is_local e = Ok false)) /\
  (startswith k ASIC_KEY_PREFIX = true ->
   nth_error (split (lower k) DOUBLE_QUOTE) 3 = None ->
   checkout_rt_entry k = Raise IndexError).
Proof.
  split; [|split].
  - intros H. unfold checkout_rt_entry. now rewrite H.
  - apply checkout_rt_entry_answers.
  - intros H1 H2. unfold checkout_rt_entry, subscript. now rewrite H1, H2.
Qed.

Lemma checkout_rt_entry_edges_witness :
  checkout_rt_entry (lib := dotted_quad) "SAI_OBJECT_TYPE_SWITCH:oid:0x21000000000000"
    = Ok (false, None) /\
  checkout_rt_entry (lib := dotted_quad) "SAI_OBJECT_TYPE_ROUTE_ENTRY:{}"
    = Raise IndexError.
Proof.
  split.
  - apply (proj1 (checkout_rt_entry_edges (lib := dotted_quad)
                    "SAI_OBJECT_TYPE_SWITCH:oid:0x21000000000000")).
    reflexivity.
  - apply (proj2 (proj2 (checkout_rt_entry_edges (lib := dotted_quad)
                           "SAI_OBJECT_TYPE_ROUTE_ENTRY:{}"))); reflexivity.
Defined.

(** X10. When [get_routes] returns, every key of ROUTE_TABLE was
    accepted by [is_local], and the list returned is the sorted list
    of the canonical forms of the keys that are not link-local: it is
    ascending and each entry is lowercase and has a slash. *)
Theorem get_routes_contract {lib : ipaddress} (g : LogConfig) (c : Cycle)
  (keys : list string) (tr : list effect) (l : list string) :
  route_table_keys c = Ok keys ->
  get_routes g c = (tr, Returns l) ->
  l = sorted (map canonicalize (filter (fun k => negb (link_local k)) keys)) /\
  ascending l /\
  Forall (fun x => has_char "/" x = true /\ lower x = x) l /\
  Forall (fun k => exists b, is_local k = Ok b) keys.
Proof.
  intros Hc H. destruct (get_routes_returns g c keys tr l Hc H) as (v & Hv & ->).
  destruct (valid_routes_ok keys [] v Hv) as [HF ->]. cbn [app].
  split; [reflexivity|]. split; [apply sorted_ascending|]. split; [|exact HF].
  apply Forall_forall. intros x Hx. apply sorted_In, in_map_iff in Hx as (k & <- & _).
  split; [apply add_prefix_ifnot_has_slash|apply canonicalize_lowercase].
Qed.

Lemma get_routes_contract_witness :
  ["10.0.0.0/24"; "10.1.0.0/24"; "10.2.0.0/24"] =
    sorted (map canonicalize
      (filter (fun k => negb (link_local (lib := dotted_quad) k))
         ["10.0.0.0/24"; "10.1.0.0/24"; "10.2.0.0/24"])).
Proof.
  exact (proj1 (get_routes_contract (lib := dotted_quad) initial_config via_local
           ["10.0.0.0/24"; "10.1.0.0/24"; "10.2.0.0/24"] []
           ["10.0.0.0/24"; "10.1.0.0/24"; "10.2.0.0/24"] eq_refl eq_refl)).
Defined.

(** X11. When [get_interfaces] returns, the list is ascending and
    holds exactly the addresses read from the keys that have a colon
    and are not link-local; each comes with the host prefix length 32
    or 128, whatever prefix length the key had. *)
Theorem get_interfaces_contract {lib : ipaddress} (g : LogConfig) (c : Cycle)
  (keys : list string) (tr : list effect) (l : list string) :
  intf_table_keys c = Ok keys ->
  get_interfaces g c = (tr, Returns l) ->
  ascending l /\
  (forall x, In x l <->
     exists k, In k keys /\ interface_address k = Some x /\ is_local x = Ok false) /\
  Forall (fun x => after "/" x = Some "32" \/ after "/" x = Some "128") l.
Proof.
  intros Hc H. destruct (get_interfaces_returns g c keys tr l Hc H) as (v & Hv & ->).
  pose proof (interface_addresses_ok keys [] v Hv) as Hin.
  assert (Hmem : forall x, In x (sorted v) <->
            exists k, In k keys /\ interface_address k = Some x /\ is_local x = Ok false).
  { intros x. rewrite sorted_In, Hin. split; [intros [[]|?]; assumption|now right]. }
  split; [apply sorted_ascending|]. split; [exact Hmem|].
  apply Forall_forall. intros x Hx. apply Hmem in Hx as (k & _ & Hk & _).
  unfold interface_address in Hk.
  destruct (after ":" (lower k)) as [rest|]; [|discriminate].
  cbn in Hk. injection Hk as <-. rewrite add_prefix_cases.
  destruct (has_char ":" (upto "/" rest)); [right|left];
    apply after_append, upto_has_no.
Qed.

Lemma get_interfaces_contract_witness :
  In "10.0.0.1/32" ["10.0.0.1/32"] <->
  exists k, In k ["Ethernet0:10.0.0.1/24"] /\ interface_address k = Some "10.0.0.1/32" /\
            is_local (lib := dotted_quad) "10.0.0.1/32" = Ok false.
Proof.
  exact (proj1 (proj2 (get_interfaces_contract (lib := dotted_quad) initial_config
           interface_only ["Ethernet0:10.0.0.1/24"] [] ["10.0.0.1/32"] eq_refl eq_refl))
         "10.0.0.1/32").
Defined.

(** X12. When [get_route_entries] returns and no buffered key is
    empty, the whole buffer was read, and the list returned is
    ascending and holds exactly the entries that [checkout_rt_entry]
    accepts. *)
Theorem get_route_entries_contract {lib : ipaddress} (g : LogConfig) (c : Cycle)
  (buffer : list (string * string)) (tr : list effect)
  (subs : list (string * string)) (l : list string) :
  asic_state c = Ok buffer ->
  Forall (fun p => fst p <> "") buffer ->
  get_route_entries g c = (tr, Returns (subs, l)) ->
  subs = [] /\
  ascending l /\
  (forall x, In x l <->
     exists k op, In (k, op) buffer /\ checkout_rt_entry k = Ok (true, Some x)).
Proof.
  intros Hc Hne H.
  destruct (get_route_entries_returns g c buffer tr subs l Hc H) as (rt & Hp & ->).
  destruct (pop_route_entries_ok buffer [] subs rt Hp Hne) as [-> Hin].
  split; [reflexivity|]. split; [apply sorted_ascending|].
  intros x. rewrite sorted_In, Hin. split; [intros [[]|?]; assumption|now right].
Qed.

Lemma get_route_entries_contract_witness :
  In "0.0.0.0/0" ["0.0.0.0/0"; "10.0.0.0/24"] <->
  exists k op,
    In (k, op) [(asic_key "10.0.0.0/24", "SET"); (asic_key "0.0.0.0/0", "SET")] /\
    checkout_rt_entry (lib := dotted_quad) k = Ok (true, Some "0.0.0.0/0").
Proof.
  refine (proj2 (proj2 (get_route_entries_contract (lib := dotted_quad) initial_config
            scenario_D [(asic_key "10.0.0.0/24", "SET"); (asic_key "0.0.0.0/0", "SET")]
            [] [] ["0.0.0.0/0"; "10.0.0.0/24"] eq_refl _ eq_refl)) "0.0.0.0/0").
  repeat constructor; discriminate.
Defined.

(** X13. One drain of the subscriber, when no buffered key is empty,
    empties the buffer and files each accepted entry under its
    operation: SET entries join the adds, DEL entries the deletes, and
    entries of any other operation are dropped. *)
Theorem pop_updates_classifies {lib : ipaddress} (buffer : list (string * string))
  (adds deletes : list string) (rest : list (string * string))
  (adds' deletes' : list string) :
  pop_updates buffer adds deletes = Ok (rest, adds', deletes') ->
  Forall (fun p => fst p <> "") buffer ->
  rest = [] /\
  (forall x, In x adds' <->
     In x adds \/
     exists k, In (k, "SET") buffer /\ checkout_rt_entry k = Ok (true, Some x)) /\
  (forall x, In x deletes' <->
     In x deletes \/
     exists k, In (k, "DEL") buffer /\ checkout_rt_entry k = Ok (true, Some x)).
Proof.
  intros H Hne.
  destruct (pop_updates_sound buffer adds deletes rest adds' deletes' H) as (_ & Hs & Hd).
  destruct (pop_updates_complete buffer adds deletes rest adds' deletes' H Hne)
    as (-> & Hs' & Hd').
  split; [reflexivity|]. split; intros x; split; auto.
Qed.

Lemma pop_updates_classifies_witness :
  In "10.9.0.0/16" ["10.9.0.0/16"] <->
  In "10.9.0.0/16" [] \/
  exists k, In (k, "DEL") [ (asic_key "10.0.0.0/24", "SET");
                            (asic_key "10.9.0.0/16", "DEL");
                            (asic_key "10.8.0.0/16", "HSET") ] /\
            checkout_rt_entry (lib := dotted_quad) k = Ok (true, Some "10.9.0.0/16").
Proof.
  refine (proj2 (proj2 (pop_updates_classifies (lib := dotted_quad)
            [ (asic_key "10.0.0.0/24", "SET"); (asic_key "10.9.0.0/16", "DEL");
              (asic_key "10.8.0.0/16", "HSET") ]
            [] [] [] ["10.0.0.0/24"] ["10.9.0.0/16"] eq_refl _)) "10.9.0.0/16").
  repeat constructor; discriminate.
Defined.

(** X14. When the collector returns, its two lists are ascending, and
    every entry of them comes from an accepted event of the matching
    operation that was buffered or arrived during the window. *)
Theorem get_subscribe_updates_sound {lib : ipaddress} (g : LogConfig) (c : Cycle)
  (subs : list (string * string)) (tr : list effect) (adds deletes : list string) :
  get_subscribe_updates g c subs = (tr, Returns (adds, deletes)) ->
  ascending adds /\ ascending deletes /\
  (forall x, In x adds ->
     exists k, In (k, "SET") (subs ++ concat (map arrived (wake_ups c))) /\
               checkout_rt_entry k = Ok (true, Some x)) /\
  (forall x, In x deletes ->
     exists k, In (k, "DEL") (subs ++ concat (map arrived (wake_ups c))) /\
               checkout_rt_entry k = Ok (true, Some x)).
Proof.
  intros H.
  destruct (get_subscribe_updates_returns g c subs tr adds deletes H)
    as (tr' & a & d & Hl & -> & ->).
  destruct (collect_loop_sound _ _ _ _ _ _ _ _ _ Hl) as [Hs Hd].
  split; [apply sorted_ascending|]. split; [apply sorted_ascending|].
  split; intros x Hx; apply (proj1 (sorted_In _ _)) in Hx.
  - destruct (Hs x Hx) as [[]|?]. assumption.
  - destruct (Hd x Hx) as [[]|?]. assumption.
Qed.

Lemma get_subscribe_updates_sound_witness :
  exists k, In (k, "SET") ([] ++ concat (map arrived (wake_ups scenario_B))) /\
            checkout_rt_entry (lib := dotted_quad) k = Ok (true, Some "10.0.0.0/24").
Proof.
  exact (proj1 (proj2 (proj2 (get_subscribe_updates_sound (lib := dotted_quad)
           initial_config scenario_B [] [Select 1] ["10.0.0.0/24"] ["10.9.0.0/16"]
           eq_refl))) "10.0.0.0/24" (or_introl eq_refl)).
Defined.

(** X15. On a plausible script every call of [select] is given
    exactly [SUBSCRIBE_WAIT_SECS]: the window is one second, so a
    truncated remaining time is positive only while the clock has not
    moved.  And a collector that returns has called [select] at least
    once. *)
Theorem collector_timeouts {lib : ipaddress} (g : LogConfig) (c : Cycle)
  (subs : list (string * string)) :
  plausible (collect_start c + inject_Z SUBSCRIBE_WAIT_SECS)%Q SUBSCRIBE_WAIT_SECS
    (collect_start c) (wake_ups c) ->
  Forall (fun t => t = SUBSCRIBE_WAIT_SECS)
    (select_calls (fst (get_subscribe_updates g c subs))) /\
  (forall r, snd (get_subscribe_updates g c subs) = Returns r ->
     select_calls (fst (get_subscribe_updates g c subs)) <> []).
Proof.
  intros Hpl.
  destruct (get_subscribe_updates_loop g c subs) as (Hcalls & Hret & _).
  cbv zeta in Hcalls, Hret. rewrite Hcalls. split.
  - apply (collect_loop_timeouts _ (wake_ups c) SUBSCRIBE_WAIT_SECS (collect_start c));
      [reflexivity| |exact Hpl].
    unfold SUBSCRIBE_WAIT_SECS. change (inject_Z 1) with 1%Q. lra.
  - intros r Hr. destruct (Hret r Hr) as [r' Hr'].
    now apply (collect_loop_waits _ (wake_ups c) SUBSCRIBE_WAIT_SECS subs [] [] r').
Qed.

Lemma collector_timeouts_witness :
  Forall (fun t => t = SUBSCRIBE_WAIT_SECS)
    (select_calls (fst (get_subscribe_updates (lib := dotted_quad)
                          initial_config frozen_clock []))).
Proof.
  apply (collector_timeouts (lib := dotted_quad) initial_config frozen_clock []).
  cbn. repeat split; discriminate.
Defined.

(** X16. When every route looked up has no entry or an entry with an
    [ifname], [filter_out_local_interfaces] returns, in order, the
    routes that are not on a local interface, a route with no entry
    being kept; a route whose entry has fields but no [ifname] makes
    it raise [KeyError]. *)
Theorem filter_out_local_interfaces_filter (c : Cycle)
  (tbl_get : string -> list (string * string)) (keys : list string) :
  route_table_get c = Ok tbl_get ->
  (Forall (fun k => tbl_get k = [] \/ exists n, dict_get (tbl_get k) "ifname" = Ok n) keys ->
   filter_out_local_interfaces c keys =
     ([], Returns (filter (fun k => negb (on_local_interface tbl_get k)) keys))) /\
  (forall k, In k keys -> tbl_get k <> [] ->
     dict_get (tbl_get k) "ifname" = Raise KeyError ->
     filter_out_local_interfaces c keys = ([], Raises KeyError)).
Proof.
  intros Hc. unfold filter_out_local_interfaces. rewrite Hc. cbn [lift ret mbind app].
  split.
  - intros HF. now rewrite (keep_non_local_ok tbl_get keys [] HF).
  - intros k Hin Hne Hk. now rewrite (keep_non_local_key_error tbl_get keys k Hin Hne Hk []).
Qed.

Lemma filter_out_local_interfaces_filter_witness :
  filter_out_local_interfaces via_local ["10.0.0.0/24"; "10.1.0.0/24"; "10.2.0.0/24"; "10.3.0.0/24"] =
    ([], Returns ["10.0.0.0/24"; "10.3.0.0/24"]).
Proof.
  apply (proj1 (filter_out_local_interfaces_filter via_local route_attrs
                  ["10.0.0.0/24"; "10.1.0.0/24"; "10.2.0.0/24"; "10.3.0.0/24"] eq_refl)).
  repeat (apply Forall_cons;
          [first [left; reflexivity | right; eexists; reflexivity]|]).
  apply Forall_nil.
Defined.


Lemma check_routes_result_witness :
  snd (check_routes (lib := dotted_quad) initial_config via_local) =
    Returns (-1, Some [("missed_ROUTE_TABLE_routes", ["10.0.0.0/24"])]) /\
  exists subs rt_asic rt_appl intf_appl missing unaccounted,
    snd (get_route_entries (lib := dotted_quad) initial_config via_local) =
      Returns (subs, rt_asic) /\
    snd (get_routes (lib := dotted_quad) initial_config via_local) = Returns rt_appl /\
    snd (get_interfaces (lib := dotted_quad) initial_config via_local) =
      Returns intf_appl /\
    let rt_appl_miss := fst (diff_sorted_lists rt_appl rt_asic) in
    let rt_asic_miss :=
      snd (diff_sorted_lists intf_appl (snd (diff_sorted_lists rt_appl rt_asic))) in
    let i := fst (diff_sorted_lists intf_appl rt_asic) in
    snd (if nonempty rt_appl_miss
         then filter_out_local_interfaces via_local rt_appl_miss
         else ret rt_appl_miss) = Returns missing /\
    filter_out_default_routes (lib := dotted_quad) rt_asic_miss = Ok unaccounted /\
    incl missing rt_appl /\
    incl unaccounted rt_asic /\
    Forall (fun rt => is_default_route (lib := dotted_quad) rt = Ok false) unaccounted /\
    ((missing = [] /\ unaccounted = [] /\ i = [] /\
      (-1, Some [("missed_ROUTE_TABLE_routes", ["10.0.0.0/24"])]) = (0, None)) \/
     ((missing <> [] \/ unaccounted <> []) /\
      exists adds deletes,
        snd (get_subscribe_updates (lib := dotted_quad) initial_config via_local subs) =
          Returns (adds, deletes) /\
        let a := fst (diff_sorted_lists missing adds) in
        let u := fst (diff_sorted_lists unaccounted deletes) in
        incl a missing /\ incl u unaccounted /\
        (-1, Some [("missed_ROUTE_TABLE_routes", ["10.0.0.0/24"])]) =
          if nonempty (mismatch_set a i u)
          then (-1, Some (mismatch_set a i u))
          else (0, None))).
Proof.
  split; [reflexivity|].
  apply (check_routes_result (lib := dotted_quad) initial_config via_local
           (-1, Some [("missed_ROUTE_TABLE_routes", ["10.0.0.0/24"])])).
  reflexivity.
Defined.

(** X19. With a non-zero interval [main] never returns: it ends only
    by an exception of a cycle, and while the cycles return it runs
    them one after the other, sleeping the clamped interval, between
    10 and 3600 seconds, after each. *)
Theorem main_loops_forever {lib : ipaddress} (args : Args) (cycles : list Cycle) :
  interval args <> 0 ->
  let g := set_level (mode args) (log_to_syslog args) initial_config in
  let secs := scan_interval (interval args) in
  10 <= secs <= 3600 /\
  (forall r, snd (main args cycles) <> Returns r) /\
  (Forall (fun c => exists r, snd (check_routes g c) = Returns r) cycles ->
   main args cycles =
     (flat_map (fun c => fst (check_routes g c) ++ [Sleep secs])%list cycles, Starved)).
Proof.
  intros H. cbv zeta. pose proof (scan_interval_range (interval args) H) as Hr.
  assert (Hn : scan_interval (interval args) <> 0) by lia.
  split; [exact Hr|]. unfold main. split.
  - intros r. now apply main_loop_never_returns.
  - intros HF. now apply main_loop_all_cycles.
Qed.

Lemma main_loops_forever_witness :
  main (lib := dotted_quad) {| mode := ERR; interval := 5; log_to_syslog := false |}
       [in_sync; scenario_B] = ([Sleep 10; Select 1; Sleep 10], Starved).
Proof.
  refine (proj2 (proj2 (main_loops_forever (lib := dotted_quad)
            {| mode := ERR; interval := 5; log_to_syslog := false |}
            [in_sync; scenario_B] _)) _).
  - discriminate.
  - repeat constructor; eexists; reflexivity.
Defined.

(** X20. Take a cycle whose three readers return lists without
    repeats.  When no declared route is missing once the routes on
    local interfaces are set aside, and every forwarding entry is a
    declared route, an interface address or a default route, the
    cycle never waits on the change feed; it returns success when no
    interface address is missing, and otherwise ends in
    [UnboundLocalError]. *)
Theorem check_routes_without_waiting {lib : ipaddress} (g : LogConfig) (c : Cycle)
  (tr1 tr2 tr3 : list effect) (subs : list (string * string))
  (rt_asic rt_appl intf_appl : list string)
  (tbl_get : string -> list (string * string)) :
  get_route_entries g c = (tr1, Returns (subs, rt_asic)) ->
  get_routes g c = (tr2, Returns rt_appl) ->
  get_interfaces g c = (tr3, Returns intf_appl) ->
  NoDup rt_asic -> NoDup rt_appl -> NoDup intf_appl ->
  filter (fun x => negb (mem x rt_asic)) rt_appl = [] \/
  (route_table_get c = Ok tbl_get /\
   Forall (fun k => tbl_get k = [] \/ exists n, dict_get (tbl_get k) "ifname" = Ok n)
     (filter (fun x => negb (mem x rt_asic)) rt_appl)) ->
  Forall (fun rt => exists b, is_default_route rt = Ok b)
    (filter (fun y => negb (mem y intf_appl))
       (filter (fun y => negb (mem y rt_appl)) rt_asic)) ->
  filter (fun k => negb (on_local_interface tbl_get k))
    (filter (fun x => negb (mem x rt_asic)) rt_appl) = [] ->
  filter (fun rt => negb (is_default rt))
    (filter (fun y => negb (mem y intf_appl))
       (filter (fun y => negb (mem y rt_appl)) rt_asic)) = [] ->
  snd (check_routes g c) =
    (if nonempty (filter (fun x => negb (mem x rt_asic)) intf_appl)
     then Raises UnboundLocalError
     else Returns (0, None)) /\
  waitless (check_routes g c).
Proof.
  intros Hre Hr Hi Da Dr Di Hloc Hdef Hm Hu.
  exact (proj1 (check_routes_outcome g c tr1 tr2 tr3 subs rt_asic rt_appl intf_appl
                  tbl_get Hre Hr Hi Da Dr Di Hloc Hdef) Hm Hu).
Qed.

Lemma check_routes_without_waiting_witness :
  snd (check_routes (lib := dotted_quad) initial_config scenario_D) = Returns (0, None) /\
  waitless (check_routes (lib := dotted_quad) initial_config scenario_D).
Proof.
  refine (check_routes_without_waiting (lib := dotted_quad) initial_config scenario_D
            [] [] [] [] ["0.0.0.0/0"; "10.0.0.0/24"] ["10.0.0.0/24"] [] (fun _ => [])
            eq_refl eq_refl eq_refl _ _ _ _ _ _ _).
  - repeat constructor; simpl; intuition discriminate.
  - repeat constructor; simpl; intuition discriminate.
  - constructor.
  - now left.
  - repeat constructor. now exists true.
  - reflexivity.
  - reflexivity.
Defined.

(** X21. Take a cycle whose three readers return lists without
    repeats and in which a declared route is missing or a forwarding
    entry is unaccounted for, so that the collector runs.  When the
    collector returns, the cycle returns: a missing route is reported
    unless a SET for it was collected, an unaccounted entry unless a
    DEL for it was collected, a missing interface address in any
    case; the result is 0 when nothing is left to report and -1 with
    the dict of what is left otherwise. *)
Theorem check_routes_absorbs_updates {lib : ipaddress} (g : LogConfig) (c : Cycle)
  (tr1 tr2 tr3 tr5 : list effect) (subs : list (string * string))
  (rt_asic rt_appl intf_appl adds deletes : list string)
  (tbl_get : string -> list (string * string)) :
  get_route_entries g c = (tr1, Returns (subs, rt_asic)) ->
  get_routes g c = (tr2, Returns rt_appl) ->
  get_interfaces g c = (tr3, Returns intf_appl) ->
  NoDup rt_asic -> NoDup rt_appl -> NoDup intf_appl ->
  filter (fun x => negb (mem x rt_asic)) rt_appl = [] \/
  (route_table_get c = Ok tbl_get /\
   Forall (fun k => tbl_get k = [] \/ exists n, dict_get (tbl_get k) "ifname" = Ok n)
     (filter (fun x => negb (mem x rt_asic)) rt_appl)) ->
  Forall (fun rt => exists b, is_default_route rt = Ok b)
    (filter (fun y => negb (mem y intf_appl))
       (filter (fun y => negb (mem y rt_appl)) rt_asic)) ->
  let missing :=
    filter (fun k => negb (on_local_interface tbl_get k))
      (filter (fun x => negb (mem x rt_asic)) rt_appl) in
  let unaccounted :=
    filter (fun rt => negb (is_default rt))
      (filter (fun y => negb (mem y intf_appl))
         (filter (fun y => negb (mem y rt_appl)) rt_asic)) in
  let intf_missing := filter (fun x => negb (mem x rt_asic)) intf_appl in
  missing <> [] \/ unaccounted <> [] ->
  get_subscribe_updates g c subs = (tr5, Returns (adds, deletes)) ->
  let m := filter (fun x => negb (mem x adds)) missing in
  let u := filter (fun x => negb (mem x deletes)) unaccounted in
  snd (check_routes g c) =
    Returns (if nonempty (mismatch_set m intf_missing u)
             then (-1, Some (mismatch_set m intf_missing u))
             else (0, None)).
Proof.
  intros Hre Hr Hi Da Dr Di Hloc Hdef missing unaccounted intf_missing Hne Hg.
  exact (proj2 (check_routes_outcome g c tr1 tr2 tr3 subs rt_asic rt_appl intf_appl
                  tbl_get Hre Hr Hi Da Dr Di Hloc Hdef) tr5 adds deletes Hne Hg).
Qed.

Lemma check_routes_absorbs_updates_witness :
  snd (check_routes (lib := dotted_quad) initial_config scenario_B) = Returns (0, None).
Proof.
  refine (check_routes_absorbs_updates (lib := dotted_quad) initial_config scenario_B
            [] [] [] [Select 1] [] [] ["10.0.0.0/24"] [] ["10.0.0.0/24"] ["10.9.0.0/16"]
            (fun _ => []) eq_refl eq_refl eq_refl _ _ _ _ _ _ eq_refl).
  - constructor.
  - repeat constructor; simpl; intuition discriminate.
  - constructor.
  - right. split; [reflexivity|]. repeat constructor.
  - constructor.
  - left. discriminate.
Defined.
